(** * Merkle tree of src/tree.ts: root, proofs and verification

    A shallow embedding of the class [Tree] of [src/tree.ts] and the
    properties of its constructor, its [root] getter and its methods
    [prove] and [verify].

    JavaScript arrays are lists; an array the program shares by reference
    lives in a store and is named by its location. An index is an
    integer ([Z]): [findIndex] answers [-1] when nothing matches, and reading
    an array outside its bounds gives [undefined] ([None]). A call either
    returns a value or throws ([result]). *)

From stdpp Require Import gmap strings list.
From Stdlib Require Import ZArith Lia Permutation Sorted.

Local Open Scope Z_scope.

(** ** Outcomes of a call *)

(** What a call can end in besides a value: [Error msg] is the
    [throw new Error(msg)] of the source, [TypeError] a method call on
    [undefined], [OutOfFuel] the cut of a loop of the model (never reached:
    see [root_for_pair_up], [root_while_fuel] and [step4_for_pair_up]). *)
Inductive exn : Type :=
| Error (msg : string)
| TypeError
| OutOfFuel.

Inductive result (A : Type) : Type :=
| Ok (a : A)
| Throw (e : exn).

Arguments Ok {A} a.
Arguments Throw {A} e.

Definition bind {A B : Type} (m : result A) (f : A → result B) : result B :=
  match m with
  | Ok a => f a
  | Throw e => Throw e
  end.

Notation "'let!' x ':=' m 'in' k" := (bind m (fun x => k))
  (at level 10, x name, m at level 100, k at level 200, only parsing).

(** [o.method(...)] where [o] was read from an array: a [TypeError] when the
    read gave [undefined]. *)
Definition defined {A : Type} (o : option A) : result A :=
  match o with
  | Some a => Ok a
  | None => Throw TypeError
  end.

(** [arr[i]] for an integer [i]: [undefined] below [0] and from
    [arr.length] on. *)
Definition js_get {A : Type} (arr : list A) (i : Z) : option A :=
  if i <? 0 then None else arr !! Z.to_nat i.

(** [arr.length]. *)
Definition len {A : Type} (arr : list A) : Z := Z.of_nat (length arr).

(** [arr.findIndex(p)]: the first index whose element satisfies [p], [-1]
    when there is none. *)
Fixpoint findIndex_from {A : Type} (p : A → bool) (arr : list A) (i : Z) : Z :=
  match arr with
  | [] => -1
  | a :: arr' => if p a then i else findIndex_from p arr' (i + 1)
  end.

Definition findIndex {A : Type} (p : A → bool) (arr : list A) : Z :=
  findIndex_from p arr 0.

(** [Math.ceil(Math.log2(n))] for an array length [n]: the floating-point
    logarithm is taken at its exact value, so the result is the least [k]
    with [n <= 2^k] ([0] for [n <= 1]; for [n = 0] the source gets
    [-Infinity] and throws before using it). *)
Definition ceil_log2 (n : nat) : nat := Nat.log2_up n.

Definition msg_root : string := "Cannot generate merkle root from empty tree.".
Definition msg_prove : string := "Cannot find prove from empty tree!".

(** ** The classes *)

Section Merkle.

(** [./leaf] and [./node] are imported by [tree.ts]; of [Leaf] the tree
    uses the field [value] and the method [gte], of [Node] the constructor
    and the methods [hash] and [eq]. [V] is the type of a commitment
    value. *)
Variable Leaf : Type.
Variable V : Type.
Variable value : Leaf → V.

(** The number the sort sees for [a.gte(b)] (its [ToNumber]): negative,
    zero or positive. *)
Variable gte : Leaf → Leaf → Z.

(** Modelled from the spec: the class [Node] of [./node], a wrapper of one
    fixed-size value. *)
Record Node : Type := new_Node { node_value : V }.

(** [a.hash(b)] and [a.eq(b)] of [./node]. *)
Variable hash : Node → Node → Node.
Variable eq : Node → Node → bool.

(** *** Array.prototype.sort *)

(** [insert x l] puts [x] before the first element it does not exceed. *)
Fixpoint insert (x : Leaf) (l : list Leaf) : list Leaf :=
  match l with
  | [] => [x]
  | y :: l' => if gte x y <=? 0 then x :: y :: l' else y :: insert x l'
  end.

(** [arr.sort((a, b) => a.gte(b))]: the stable sort. ECMAScript fixes the
    result of [sort] for a consistent comparator only (it is then this
    one); whatever the comparator, the result holds the elements of the
    array. *)
Fixpoint sort (l : list Leaf) : list Leaf :=
  match l with
  | [] => []
  | x :: l' => insert x (sort l')
  end.

(** A consistent comparator in the sense of ECMAScript's
    [Array.prototype.sort]: its sign splits the leaves into classes that are
    totally ordered. *)
Record consistent_comparator : Prop := {
  cf_refl : ∀ a, gte a a = 0;
  cf_sym : ∀ a b, gte a b = 0 → gte b a = 0;
  cf_trans_eq : ∀ a b c, gte a b = 0 → gte b c = 0 → gte a c = 0;
  cf_trans_lt : ∀ a b c, gte a b < 0 → gte b c < 0 → gte a c < 0;
  cf_trans_gt : ∀ a b c, gte a b > 0 → gte b c > 0 → gte a c > 0
}.

(** Two arrays whose leaves are pairwise in the same class. *)
Definition same_classes (l l' : list Leaf) : Prop :=
  Forall2 (fun a b => gte a b = 0) l l'.

(** *** The store and the constructor *)

(** A [Tree] holds a reference to its array of leaves. *)
Record Tree : Type := mkTree { leaves : positive }.

(** [new Tree(leaves)]: [this.leaves = leaves.sort(...)]. [sort] works in
    place and returns its receiver. *)
Definition Tree_new (ls : positive) (h : gmap positive (list Leaf))
  : Tree * gmap positive (list Leaf) :=
  (mkTree ls, alter sort ls h).

(** The array [this.leaves] in store [h]. *)
Definition leaves_of (t : Tree) (h : gmap positive (list Leaf)) : list Leaf :=
  default [] (h !! leaves t).

(** *** root *)

(** The [for] loop of [root] at index [i]: [temp] is the level built so
    far. *)
Fixpoint root_for (fuel : nat) (i : Z) (nodes temp : list Node)
  : result (list Node) :=
  match fuel with
  | O => Throw OutOfFuel
  | S fuel' =>
      if i <? len nodes then
        match js_get nodes (i + 1) with
        | None => (* !nodes[i + 1]: push nodes[i]; break *)
            let! a := defined (js_get nodes i) in
            Ok (temp ++ [a])
        | Some b =>
            let! a := defined (js_get nodes i) in
            root_for fuel' (i + 2) nodes (temp ++ [hash a b])
        end
      else Ok temp
  end.

(** The [while (nodes.length > 1)] loop of [root]. *)
Fixpoint root_while (fuel : nat) (nodes : list Node) : result (list Node) :=
  match fuel with
  | O => Throw OutOfFuel
  | S fuel' =>
      if 1 <? len nodes then
        let! temp := root_for (S (length nodes)) 0 nodes [] in
        root_while fuel' temp
      else Ok nodes
  end.

(** The getter [root] on the array of leaves. *)
Definition root (ls : list Leaf) : result Node :=
  let nodes := map (fun leaf => new_Node (value leaf)) ls in
  if len nodes =? 0 then Throw (Error msg_root)
  else if len nodes =? 1 then defined (js_get nodes 0)
  else
    let! nodes' := root_while (S (length nodes)) nodes in
    defined (js_get nodes' 0).

(** *** prove *)

(** Step 4 of [prove]: the [for] loop that builds the next level. *)
Fixpoint step4_for (fuel : nat) (i : Z) (nodes nextLevel : list Node)
  : result (list Node) :=
  match fuel with
  | O => Throw OutOfFuel
  | S fuel' =>
      if i <? len nodes then
        if i + 1 <? len nodes then
          let! a := defined (js_get nodes i) in
          let! b := defined (js_get nodes (i + 1)) in
          step4_for fuel' (i + 2) nodes (nextLevel ++ [hash a b])
        else
          let! a := defined (js_get nodes i) in
          step4_for fuel' (i + 2) nodes (nextLevel ++ [a])
      else Ok nextLevel
  end.

(** Steps 1 and 2: the sibling of [nodeProved] in the level [nodes]. *)
Definition find_sibling (nodes : list Node) (nodeProved : Node) : option Node :=
  let provedIdx := findIndex (fun node => eq node nodeProved) nodes in
  if (Z.rem provedIdx 2 =? 0) && (provedIdx + 1 <? len nodes)
  then js_get nodes (provedIdx + 1)
  else js_get nodes (provedIdx - 1).

(** The [for (let i = 0; i < merkleTreeLevel; i++)] loop of [prove];
    [levels] counts the iterations left. *)
Fixpoint prove_for (levels : nat) (nodes : list Node) (nodeProved : Node)
  (proof : list Node) : result (list Node) :=
  match levels with
  | O => Ok proof
  | S levels' =>
      let sibling := find_sibling nodes nodeProved in
      let '(nodeProved', proof') :=
        match sibling with
        | Some s => (hash nodeProved s, proof ++ [s])
        | None => (nodeProved, proof)
        end in
      let! nextLevel := step4_for (S (length nodes)) 0 nodes [] in
      prove_for levels' nextLevel nodeProved' proof'
  end.

(** [prove(leaf)] on the array of leaves. *)
Definition prove (ls : list Leaf) (leaf : Leaf) : result (list Node) :=
  let proof := [] in
  let nodes := map (fun leaf => new_Node (value leaf)) ls in
  let nodeProved := new_Node (value leaf) in
  let merkleTreeLevel := ceil_log2 (length nodes) in
  if len nodes =? 0 then Throw (Error msg_prove)
  else if len nodes =? 1 then Ok proof
  else prove_for merkleTreeLevel nodes nodeProved proof.

(** *** verify *)

(** [verify(leaf, proof)] on the array of leaves: the loop folds [hash]
    over the proof, then the root is computed and compared. *)
Definition verify (ls : list Leaf) (leaf : Leaf) (proof : list Node)
  : result bool :=
  let node := fold_left hash proof (new_Node (value leaf)) in
  let! r := root ls in
  Ok (eq r node).

(** *** The reduction in the words of the specification *)

(** One level to the next: combine node[i] with node[i+1] when the pair
    exists, carry an odd last node forward unchanged. *)
Fixpoint spec_next_level (nodes : list Node) : list Node :=
  match nodes with
  | a :: b :: rest => hash a b :: spec_next_level rest
  | _ => nodes
  end.

(** Repeat until exactly one node remains; that node is the root. *)
Fixpoint spec_reduce (fuel : nat) (nodes : list Node) : option Node :=
  match nodes with
  | [] => None
  | [r] => Some r
  | _ =>
      match fuel with
      | O => None
      | S fuel' => spec_reduce fuel' (spec_next_level nodes)
      end
  end.

(** The level reached from [nodes] after [k] reductions. *)
Fixpoint spec_level (k : nat) (nodes : list Node) : list Node :=
  match k with
  | O => nodes
  | S k' => spec_level k' (spec_next_level nodes)
  end.

(** The number of reductions that bring [n] nodes down to one: the height
    of the carry-up tree. *)
Fixpoint spec_height (fuel n : nat) : nat :=
  match fuel with
  | O => O
  | S fuel' =>
      if (n <=? 1)%nat then O else S (spec_height fuel' (Nat.div2 (S n)))
  end.

(** Whether the node at position [i] of a level of [n] nodes has a
    pairing partner: a right neighbour for an even position, the left
    neighbour for an odd one. *)
Definition spec_paired (n i : nat) : bool :=
  if Nat.even i then (S i <? n)%nat else true.

(** The number of levels at which the node that starts at position [i] of
    [n] leaves has a pairing partner on its way to the root. *)
Fixpoint spec_paired_levels (fuel n i : nat) : nat :=
  match fuel with
  | O => O
  | S fuel' =>
      if (n <=? 1)%nat then O
      else
        ((if spec_paired n i then 1 else 0)
         + spec_paired_levels fuel' (Nat.div2 (S n)) (Nat.div2 i))%nat
  end.

(** *** The methods on a tree in a store *)

(** A method returns its outcome and the store it leaves. *)
Definition Tree_root (t : Tree) (h : gmap positive (list Leaf))
  : result Node * gmap positive (list Leaf) :=
  (root (leaves_of t h), h).

Definition Tree_prove (t : Tree) (leaf : Leaf) (h : gmap positive (list Leaf))
  : result (list Node) * gmap positive (list Leaf) :=
  (prove (leaves_of t h) leaf, h).

Definition Tree_verify (t : Tree) (leaf : Leaf) (proof : list Node)
  (h : gmap positive (list Leaf))
  : result bool * gmap positive (list Leaf) :=
  (verify (leaves_of t h) leaf proof, h).

End Merkle.

(** ** A sample instance

    Leaves and commitment values are integers, a leaf is its own value and
    [gte] is the signed difference. [hashZ] combines two values regardless
    of their order: [mix] is Cantor's pairing of the pair taken unordered,
    so that on natural numbers only the two orders of a pair collide. *)

Module Sample.

Definition mix (x y : Z) : Z := (x + y) * (x + y + 1) / 2 + Z.max x y.

Definition hashZ (a b : Node Z) : Node Z :=
  new_Node Z (mix (node_value Z a) (node_value Z b)).

Definition eqZ (a b : Node Z) : bool := node_value Z a =? node_value Z b.

Definition gteZ (a b : Z) : Z := a - b.

Definition N (z : Z) : Node Z := new_Node Z z.

(** An order-sensitive combination, for contrast. *)
Definition hashLR (a b : Node Z) : Node Z :=
  new_Node Z (2 * node_value Z a + 3 * node_value Z b).

End Sample.

(** ** Reading arrays *)

Section Arrays.

Context {A : Type}.
Implicit Types (arr pre rest : list A) (i j : Z).

Lemma len_nonneg arr : 0 <= len arr.
Proof. unfold len. lia. Qed.

Lemma len_app pre rest : len (pre ++ rest) = len pre + len rest.
Proof. unfold len. rewrite length_app. lia. Qed.

Lemma len_cons (a : A) arr : len (a :: arr) = 1 + len arr.
Proof. unfold len. simpl. lia. Qed.

Lemma js_get_negative arr i : i < 0 → js_get arr i = None.
Proof. intros Hi. unfold js_get. destruct (Z.ltb_spec i 0); [done | lia]. Qed.

Lemma js_get_beyond arr i : len arr <= i → js_get arr i = None.
Proof.
  intros Hi. pose proof (len_nonneg arr). unfold js_get, len in *.
  destruct (Z.ltb_spec i 0); [done |]. apply lookup_ge_None. lia.
Qed.

Lemma js_get_within arr i : 0 <= i < len arr → is_Some (js_get arr i).
Proof.
  intros Hi. unfold js_get, len in *.
  destruct (Z.ltb_spec i 0); [lia |]. apply lookup_lt_is_Some. lia.
Qed.

Lemma js_get_app_r pre rest j :
  0 <= j → js_get (pre ++ rest) (len pre + j) = js_get rest j.
Proof.
  intros Hj. unfold js_get, len.
  destruct (Z.ltb_spec (Z.of_nat (length pre) + j) 0); [lia |].
  destruct (Z.ltb_spec j 0); [lia |].
  rewrite lookup_app_r by lia. f_equal. lia.
Qed.

Lemma js_get_app_0 pre rest : js_get (pre ++ rest) (len pre) = js_get rest 0.
Proof. rewrite <- (js_get_app_r pre rest 0) by lia. f_equal. lia. Qed.

Lemma js_get_head (a : A) arr : js_get (a :: arr) 0 = Some a.
Proof. reflexivity. Qed.

Lemma js_get_second (a b : A) arr : js_get (a :: b :: arr) 1 = Some b.
Proof. reflexivity. Qed.

Lemma js_get_single_1 (a : A) : js_get [a] 1 = None.
Proof. reflexivity. Qed.

End Arrays.

(** ** The loops compute the next level *)

Section Loops.

Context {Leaf V : Type}.
Variable value : Leaf → V.
Variable hash : Node V → Node V → Node V.
Variable eq : Node V → Node V → bool.

Local Abbreviation next_level := (spec_next_level V hash).

(** The [for] loop of [root] builds the next level of the specification,
    and [length rest / 2 + 1] rounds of fuel are enough for it. *)
Lemma root_for_pair_up fuel pre rest temp :
  (length rest < 2 * fuel)%nat →
  root_for V hash fuel (len pre) (pre ++ rest) temp
  = Ok (temp ++ next_level rest).
Proof.
  revert pre rest temp. induction fuel as [|fuel IH]; intros pre rest temp Hf.
  - lia.
  - cbn [root_for]. destruct rest as [|a [|b rest]].
    + rewrite app_nil_r, Z.ltb_irrefl. by rewrite app_nil_r.
    + rewrite len_app, (js_get_app_r pre [a] 1), js_get_app_0 by lia.
      replace (len pre <? len pre + len [a]) with true
        by (symmetry; apply Z.ltb_lt; rewrite len_cons; pose proof (len_nonneg (@nil (Node V))); lia).
      by rewrite js_get_single_1, js_get_head.
    + rewrite len_app, (js_get_app_r pre (a :: b :: rest) 1), js_get_app_0 by lia.
      replace (len pre <? len pre + len (a :: b :: rest)) with true
        by (symmetry; apply Z.ltb_lt; rewrite !len_cons; pose proof (len_nonneg rest); lia).
      rewrite js_get_second, js_get_head. cbn [defined bind].
      change (pre ++ a :: b :: rest) with (pre ++ [a; b] ++ rest).
      rewrite app_assoc.
      replace (len pre + 2) with (len (pre ++ [a; b]))
        by (rewrite len_app; reflexivity).
      rewrite IH by (simpl in Hf; lia).
      by rewrite <- app_assoc.
Qed.

(** Step 4 of [prove] builds the same level; its loop has no [break] and
    takes one more round to leave after an odd last node. *)
Lemma step4_for_pair_up fuel pre rest nextLevel :
  (length rest + 1 < 2 * fuel)%nat →
  step4_for V hash fuel (len pre) (pre ++ rest) nextLevel
  = Ok (nextLevel ++ next_level rest).
Proof.
  revert pre rest nextLevel.
  induction fuel as [|fuel IH]; intros pre rest nextLevel Hf.
  - lia.
  - cbn [step4_for]. destruct rest as [|a [|b rest]].
    + rewrite app_nil_r, Z.ltb_irrefl. by rewrite app_nil_r.
    + rewrite len_app, js_get_app_0, js_get_head.
      replace (len pre <? len pre + len [a]) with true
        by (symmetry; apply Z.ltb_lt; rewrite len_cons; pose proof (len_nonneg (@nil (Node V))); lia).
      replace (len pre + 1 <? len pre + len [a]) with false
        by (symmetry; apply Z.ltb_ge; rewrite len_cons; unfold len; simpl; lia).
      cbn [defined bind]. destruct fuel as [|fuel]; [simpl in Hf; lia |].
      cbn [step4_for]. rewrite len_app.
      replace (len pre + 2 <? len pre + len [a]) with false
        by (symmetry; apply Z.ltb_ge; rewrite len_cons; unfold len; simpl; lia).
      reflexivity.
    + rewrite len_app, (js_get_app_r pre (a :: b :: rest) 1), js_get_app_0 by lia.
      replace (len pre <? len pre + len (a :: b :: rest)) with true
        by (symmetry; apply Z.ltb_lt; rewrite !len_cons; pose proof (len_nonneg rest); lia).
      replace (len pre + 1 <? len pre + len (a :: b :: rest)) with true
        by (symmetry; apply Z.ltb_lt; rewrite !len_cons; pose proof (len_nonneg rest); lia).
      rewrite js_get_second, js_get_head. cbn [defined bind].
      change (pre ++ a :: b :: rest) with (pre ++ [a; b] ++ rest).
      rewrite app_assoc.
      replace (len pre + 2) with (len (pre ++ [a; b]))
        by (rewrite len_app; reflexivity).
      rewrite IH by (simpl in Hf; lia).
      by rewrite <- app_assoc.
Qed.

Lemma root_for_next_level nodes :
  root_for V hash (S (length nodes)) 0 nodes [] = Ok (next_level nodes).
Proof. apply (root_for_pair_up (S (length nodes)) [] nodes []). lia. Qed.

Lemma step4_for_next_level nodes :
  step4_for V hash (S (length nodes)) 0 nodes [] = Ok (next_level nodes).
Proof. apply (step4_for_pair_up (S (length nodes)) [] nodes []). lia. Qed.

(** Lists two elements at a time. *)
Lemma list_pair_ind (P : list (Node V) → Prop) :
  P [] → (∀ a, P [a]) → (∀ a b l, P l → P (a :: b :: l)) → ∀ l, P l.
Proof.
  intros H0 H1 H2 l. cut (P l ∧ ∀ a, P (a :: l)); [tauto |].
  induction l as [|b l [IHl IHl']]; split; auto.
Qed.

(** A level of [n] nodes is followed by one of [n/2] nodes, rounded up. *)
Lemma next_level_length nodes :
  length (next_level nodes) = Nat.div2 (S (length nodes)).
Proof.
  induction nodes as [| a | a b l IH] using list_pair_ind; [done | done |].
  cbn [spec_next_level length]. rewrite IH. reflexivity.
Qed.

Lemma div2_succ_lt n : (2 <= n)%nat → (Nat.div2 (S n) < n)%nat.
Proof.
  intros Hn. rewrite Nat.div2_div.
  apply Nat.Div0.div_lt_upper_bound. lia.
Qed.

Lemma div2_succ_pos n : (1 <= n)%nat → (1 <= Nat.div2 (S n))%nat.
Proof. destruct n as [|[|n]]; simpl; lia. Qed.

(** The [while] loop of [root] ends with one node, the one the
    specification's reduction names; any fuel above the number of nodes
    is enough. *)
Lemma root_while_fuel fuel fuel' nodes :
  (length nodes < fuel)%nat → (length nodes <= fuel')%nat → nodes ≠ [] →
  ∃ r, root_while V hash fuel nodes = Ok [r]
       ∧ spec_reduce V hash fuel' nodes = Some r.
Proof.
  revert fuel' nodes.
  induction fuel as [|fuel IH]; intros fuel' nodes Hf Hf' Hne; [lia |].
  destruct nodes as [|a [|b rest]]; [done | |].
  - exists a. by destruct fuel'.
  - cbn [root_while].
    replace (1 <? len (a :: b :: rest)) with true
      by (symmetry; apply Z.ltb_lt; rewrite !len_cons; pose proof (len_nonneg rest); lia).
    rewrite root_for_next_level. cbn [bind].
    destruct fuel' as [|fuel']; [simpl in Hf'; lia |].
    pose proof (next_level_length (a :: b :: rest)) as Hlen.
    pose proof (div2_succ_lt (length (a :: b :: rest))) as Hlt.
    pose proof (div2_succ_pos (length (a :: b :: rest))) as Hpos.
    simpl length in Hf, Hf', Hlt, Hpos.
    destruct (IH fuel' (next_level (a :: b :: rest))) as (r & Hr & Hs).
    + rewrite Hlen. simpl length. lia.
    + rewrite Hlen. simpl length. lia.
    + intros Heq. rewrite Heq in Hlen. simpl length in Hlen. lia.
    + exists r. split; [exact Hr |]. exact Hs.
Qed.

(** [root] of a non-empty array returns the node of the reduction. *)
Lemma root_reduce (ls : list Leaf) :
  ls ≠ [] →
  ∃ r, root Leaf V value hash ls = Ok r
       ∧ spec_reduce V hash (length ls)
           (map (fun leaf => new_Node V (value leaf)) ls) = Some r.
Proof.
  intros Hne. unfold root.
  remember (map (fun leaf => new_Node V (value leaf)) ls) as nodes eqn:Hn.
  assert (Hlen : length nodes = length ls) by (subst nodes; apply length_map).
  clear Hn. destruct nodes as [|a [|b rest]].
  - destruct ls; [done | discriminate].
  - exists a. split; [reflexivity |]. by destruct (length ls).
  - destruct (root_while_fuel (S (length (a :: b :: rest))) (length ls)
                (a :: b :: rest)) as (r & Hr & Hs); [lia | lia | done |].
    exists r.
    replace (len (a :: b :: rest) =? 0) with false
      by (symmetry; apply Z.eqb_neq; rewrite !len_cons; pose proof (len_nonneg rest); lia).
    replace (len (a :: b :: rest) =? 1) with false
      by (symmetry; apply Z.eqb_neq; rewrite !len_cons; pose proof (len_nonneg rest); lia).
    rewrite Hr. by split.
Qed.

(** The loop of [prove] never throws, and each of its rounds adds at most
    one entry to the proof. *)
Lemma prove_for_total levels nodes nodeProved proof :
  ∃ proof', prove_for V hash eq levels nodes nodeProved proof = Ok proof'
            ∧ (length proof <= length proof' <= length proof + levels)%nat.
Proof.
  revert nodes nodeProved proof.
  induction levels as [|levels IH]; intros nodes nodeProved proof.
  - exists proof. split; [reflexivity | lia].
  - cbn [prove_for]. rewrite step4_for_next_level.
    destruct (find_sibling V eq nodes nodeProved) as [s|]; cbn [bind].
    + destruct (IH (next_level nodes) (hash nodeProved s) (proof ++ [s]))
        as (proof' & -> & Hlen).
      exists proof'. split; [reflexivity |].
      rewrite length_app in Hlen. simpl in Hlen. lia.
    + destruct (IH (next_level nodes) nodeProved proof) as (proof' & -> & Hlen).
      exists proof'. split; [reflexivity | lia].
Qed.

Lemma prove_total (ls : list Leaf) (leaf : Leaf) :
  ls ≠ [] →
  ∃ proof, prove Leaf V value hash eq ls leaf = Ok proof
           ∧ (length proof <= ceil_log2 (length ls))%nat.
Proof.
  intros Hne. unfold prove. rewrite length_map.
  destruct ls as [|l1 [|l2 ls]]; [done | |].
  - exists []. split; [reflexivity | apply Nat.le_0_l].
  - replace (len (map _ (l1 :: l2 :: ls)) =? 0) with false
      by (symmetry; apply Z.eqb_neq; unfold len; simpl; lia).
    replace (len (map _ (l1 :: l2 :: ls)) =? 1) with false
      by (symmetry; apply Z.eqb_neq; unfold len; simpl; lia).
    destruct (prove_for_total (ceil_log2 (length (l1 :: l2 :: ls)))
                (map (fun leaf => new_Node V (value leaf)) (l1 :: l2 :: ls))
                (new_Node V (value leaf)) []) as (proof & Hp & Hlen).
    exists proof. split; [exact Hp | exact (proj2 Hlen)].
Qed.

Lemma root_nil : root Leaf V value hash [] = Throw (Error msg_root).
Proof. reflexivity. Qed.

Lemma prove_nil leaf : prove Leaf V value hash eq [] leaf = Throw (Error msg_prove).
Proof. reflexivity. Qed.

End Loops.

(** ** Sorting *)

Section Sorting.

Context {Leaf : Type}.
Variable gte : Leaf → Leaf → Z.

Local Abbreviation ins := (insert Leaf gte).
Local Abbreviation srt := (sort Leaf gte).
Local Abbreviation classes := (same_classes Leaf gte).

Lemma insert_Permutation x l : Permutation (x :: l) (ins x l).
Proof.
  induction l as [|y l IH]; cbn [insert]; [done |].
  destruct (gte x y <=? 0); [done |].
  rewrite perm_swap. by apply perm_skip.
Qed.

(** Whatever the comparator, sorting keeps the elements. *)
Lemma sort_Permutation l : Permutation l (srt l).
Proof.
  induction l as [|x l IH]; cbn [sort]; [done |].
  rewrite <- insert_Permutation. by apply perm_skip.
Qed.

Lemma sort_nil_inv l : srt l = [] → l = [].
Proof.
  intros Hs. apply Permutation_nil. rewrite <- Hs.
  symmetry. apply sort_Permutation.
Qed.

Hypothesis Hcf : consistent_comparator Leaf gte.

Lemma cf_lt_gt a b : gte a b < 0 → gte b a > 0.
Proof.
  intros Hab. destruct (Z.lt_trichotomy (gte b a) 0) as [Hba | [Hba | Hba]].
  - pose proof (cf_trans_lt _ _ Hcf _ _ _ Hab Hba) as Haa.
    rewrite (cf_refl _ _ Hcf) in Haa. lia.
  - apply (cf_sym _ _ Hcf) in Hba. lia.
  - lia.
Qed.

Lemma cf_gt_lt a b : gte a b > 0 → gte b a < 0.
Proof.
  intros Hab. destruct (Z.lt_trichotomy (gte b a) 0) as [Hba | [Hba | Hba]].
  - lia.
  - apply (cf_sym _ _ Hcf) in Hba. lia.
  - assert (Hba' : gte b a > 0) by lia.
    pose proof (cf_trans_gt _ _ Hcf _ _ _ Hab Hba') as Haa.
    rewrite (cf_refl _ _ Hcf) in Haa. lia.
Qed.

Lemma cf_le_trans a b c : gte a b <= 0 → gte b c <= 0 → gte a c <= 0.
Proof.
  intros Hab Hbc.
  destruct (Z.lt_trichotomy (gte a c) 0) as [Hac | [Hac | Hac]]; [lia | lia |].
  exfalso. apply Z.lt_gt, cf_gt_lt in Hac.
  assert (gte a b < 0 ∨ gte a b = 0) as [Hab' | Hab'] by lia;
    assert (gte b c < 0 ∨ gte b c = 0) as [Hbc' | Hbc'] by lia.
  - pose proof (cf_trans_lt _ _ Hcf _ _ _ Hab' Hbc') as H.
    apply cf_lt_gt in H. lia.
  - (* a < b, b = c, c < a *)
    pose proof (cf_trans_lt _ _ Hcf _ _ _ Hac Hab') as Hcb.
    apply (cf_sym _ _ Hcf) in Hbc'. lia.
  - (* a = b, b < c, c < a *)
    pose proof (cf_trans_lt _ _ Hcf _ _ _ Hbc' Hac) as Hba.
    apply (cf_sym _ _ Hcf) in Hab'. lia.
  - pose proof (cf_trans_eq _ _ Hcf _ _ _ Hab' Hbc') as H.
    apply (cf_sym _ _ Hcf) in H. lia.
Qed.

Lemma cf_total a b : gte a b <= 0 ∨ gte b a <= 0.
Proof.
  destruct (Z.le_gt_cases (gte a b) 0) as [H | H]; [by left |].
  right. apply Z.lt_gt, cf_gt_lt in H. lia.
Qed.

Lemma cf_antisym a b : gte a b <= 0 → gte b a <= 0 → gte a b = 0.
Proof.
  intros Hab Hba. assert (gte a b < 0 ∨ gte a b = 0) as [H | H] by lia; [| done].
  apply cf_lt_gt in H. lia.
Qed.

Lemma classes_refl l : classes l l.
Proof. induction l; constructor; [apply (cf_refl _ _ Hcf) | done]. Qed.

Lemma classes_trans l1 l2 l3 : classes l1 l2 → classes l2 l3 → classes l1 l3.
Proof.
  intros H12. revert l3. induction H12 as [|a b l1 l2 Hab H12 IH]; intros l3 H23.
  - inversion H23. constructor.
  - inversion H23 as [|b' c l2' l3' Hbc H23']; subst.
    constructor; [by eapply (cf_trans_eq _ _ Hcf) | by apply IH].
Qed.

(** Inserting a leaf respects the classes. *)
Lemma insert_classes x s s' : classes s s' → classes (ins x s) (ins x s').
Proof.
  induction 1 as [|a b s s' Hab Hs IH]; cbn [insert].
  - apply classes_refl.
  - assert (Hba : gte b a = 0) by by apply (cf_sym _ _ Hcf).
    destruct (Z.leb_spec (gte x a) 0) as [Hxa | Hxa],
             (Z.leb_spec (gte x b) 0) as [Hxb | Hxb].
    + constructor; [apply (cf_refl _ _ Hcf) | by constructor].
    + pose proof (cf_le_trans x a b Hxa). lia.
    + pose proof (cf_le_trans x b a Hxb). lia.
    + by constructor.
Qed.

Lemma insert_HdRel x a l :
  gte a x <= 0 → HdRel (fun u v => gte u v <= 0) a l →
  HdRel (fun u v => gte u v <= 0) a (ins x l).
Proof.
  intros Hax Hl. destruct l as [|y l]; cbn [insert]; [by constructor |].
  destruct (gte x y <=? 0); [by constructor |].
  constructor. by inversion Hl.
Qed.

Lemma insert_Sorted x l :
  Sorted (fun u v => gte u v <= 0) l → Sorted (fun u v => gte u v <= 0) (ins x l).
Proof.
  induction 1 as [|y l Hs IH Hhd]; cbn [insert].
  - by repeat constructor.
  - destruct (Z.leb_spec (gte x y) 0) as [Hxy | Hxy].
    + constructor; [by constructor | by constructor].
    + constructor; [exact IH |].
      apply insert_HdRel; [| exact Hhd].
      destruct (cf_total x y); [lia | done].
Qed.

(** With a consistent comparator the result is in ascending order. *)
Lemma sort_Sorted l : Sorted (fun u v => gte u v <= 0) (srt l).
Proof.
  induction l as [|x l IH]; cbn [sort]; [constructor | by apply insert_Sorted].
Qed.

(** An array already in ascending order is left as it is. *)
Lemma sort_Sorted_id l : Sorted (fun u v => gte u v <= 0) l → srt l = l.
Proof.
  induction 1 as [|x l Hs IH Hhd]; cbn [sort]; [done |].
  rewrite IH. destruct Hhd as [|y l Hxy]; cbn [insert]; [done |].
  by destruct (Z.leb_spec (gte x y) 0); [| lia].
Qed.

(** Two leaves inserted in either order land in the same classes. *)
Lemma insert_insert x y s : classes (ins x (ins y s)) (ins y (ins x s)).
Proof.
  assert (Hfront : ∀ t, ins x t = x :: t → ins y t = y :: t →
                        classes (ins x (y :: t)) (ins y (x :: t))).
  { intros t Hx Hy. cbn [insert]. rewrite Hx, Hy.
    destruct (Z.leb_spec (gte x y) 0) as [Hxy | Hxy],
             (Z.leb_spec (gte y x) 0) as [Hyx | Hyx].
    - constructor; [by apply cf_antisym |].
      constructor; [by apply cf_antisym | apply classes_refl].
    - apply classes_refl.
    - apply classes_refl.
    - destruct (cf_total x y); lia. }
  induction s as [|a s IH]; [by apply Hfront |].
  cbn [insert].
  destruct (Z.leb_spec (gte y a) 0) as [Hya | Hya],
           (Z.leb_spec (gte x a) 0) as [Hxa | Hxa].
  - apply Hfront; cbn [insert].
    + by destruct (Z.leb_spec (gte x a) 0); [| lia].
    + by destruct (Z.leb_spec (gte y a) 0); [| lia].
  - cbn [insert].
    destruct (Z.leb_spec (gte x y) 0) as [Hxy | Hxy];
      [pose proof (cf_le_trans x y a Hxy Hya); lia |].
    destruct (Z.leb_spec (gte x a) 0); [lia |].
    destruct (Z.leb_spec (gte y a) 0); [| lia].
    apply classes_refl.
  - cbn [insert].
    destruct (Z.leb_spec (gte y x) 0) as [Hyx | Hyx];
      [pose proof (cf_le_trans y x a Hyx Hxa); lia |].
    destruct (Z.leb_spec (gte x a) 0); [| lia].
    destruct (Z.leb_spec (gte y a) 0); [lia |].
    apply classes_refl.
  - cbn [insert].
    destruct (Z.leb_spec (gte x a) 0); [lia |].
    destruct (Z.leb_spec (gte y a) 0); [lia |].
    constructor; [apply (cf_refl _ _ Hcf) | exact IH].
Qed.

(** Sorting two arrangements of the same leaves gives, position by
    position, leaves of the same class. *)
Lemma sort_classes l l' : Permutation l l' → classes (srt l) (srt l').
Proof.
  induction 1 as [| x l l' _ IH | x y l | l1 l2 l3 _ IH12 _ IH23]; cbn [sort].
  - constructor.
  - by apply insert_classes.
  - apply insert_insert.
  - by eapply classes_trans.
Qed.

(** When leaves of one class have one value, the sorted values do not
    depend on the arrangement. *)
Lemma sort_values {V : Type} (value : Leaf → V) l l' :
  (∀ a b, gte a b = 0 → value a = value b) →
  Permutation l l' →
  map value (srt l) = map value (srt l').
Proof.
  intros Hv Hp. apply sort_classes in Hp.
  induction Hp as [|a b s s' Hab _ IH]; [done |].
  cbn [map]. by rewrite (Hv a b Hab), IH.
Qed.

(** Any ascending arrangement of the leaves, whichever way it was reached,
    has the classes of [sort] position by position. *)
Lemma sorted_arrangement_classes l s :
  Permutation l s → Sorted (fun u v => gte u v <= 0) s → classes (srt l) s.
Proof.
  intros Hp Hs. rewrite <- (sort_Sorted_id s Hs). by apply sort_classes.
Qed.

End Sorting.

(** A comparator that answers [true] (the number 1) for a leaf against
    itself, as a greater-or-equal predicate does, is not consistent. *)
Lemma boolean_gte_inconsistent {Leaf : Type} (gte : Leaf → Leaf → Z) (a : Leaf) :
  gte a a = 1 → ¬ consistent_comparator Leaf gte.
Proof. intros Ha Hcf. rewrite (cf_refl _ _ Hcf) in Ha. discriminate. Qed.

(** ** The number of levels *)

Section Heights.

Lemma div2_succ_bounds n :
  (2 * Nat.div2 (S n) <= n + 1 ∧ n <= 2 * Nat.div2 (S n))%nat.
Proof.
  pose proof (Nat.div2_odd (S n)) as H.
  destruct (Nat.odd (S n)); simpl Nat.b2n in H; lia.
Qed.

Lemma log2_up_half n :
  (2 <= n)%nat → Nat.log2_up n = S (Nat.log2_up (Nat.div2 (S n))).
Proof.
  intros Hn. pose proof (div2_succ_bounds n) as [Hlo Hhi].
  set (m := Nat.div2 (S n)) in *.
  assert (Hm : (1 <= m)%nat) by lia.
  apply Nat.le_antisymm.
  - apply Nat.log2_up_le_pow2; [lia |].
    assert (m <= 2 ^ Nat.log2_up m)%nat by (apply Nat.log2_up_le_pow2; [lia | done]).
    rewrite Nat.pow_succ_r'. lia.
  - apply Nat.le_succ_l, Nat.log2_up_lt_pow2; [lia |].
    destruct (Nat.log2_up m) as [|k'] eqn:Hk; [simpl; lia |].
    assert (2 ^ k' < m)%nat by (apply Nat.log2_up_lt_pow2; [lia | lia]).
    rewrite Nat.pow_succ_r'. lia.
Qed.

(** The reduction of [n] nodes has height [ceil(log2(n))], the number of
    levels the loop of [prove] runs. *)
Lemma spec_height_ceil_log2 fuel n :
  (n <= fuel)%nat → spec_height fuel n = ceil_log2 n.
Proof.
  unfold ceil_log2. revert n. induction fuel as [|fuel IH]; intros n Hn.
  - by replace n with 0%nat by lia.
  - cbn [spec_height]. destruct (Nat.leb_spec n 1) as [H1 | H1].
    + symmetry. by apply Nat.log2_up_eqn0.
    + rewrite log2_up_half by lia. f_equal. apply IH.
      pose proof (div2_succ_bounds n). lia.
Qed.

End Heights.

(** ** Levels without a carried node *)

Section RoundTrip.

Context {Leaf V : Type}.
Variable value : Leaf → V.
Variable hash : Node V → Node V → Node V.
Variable eq : Node V → Node V → bool.

Local Abbreviation next_level := (spec_next_level V hash).

Lemma findIndex_from_found (p : Node V → bool) nodes (i : Z) x :
  x ∈ nodes → p x = true →
  ∃ (j : nat) y, findIndex_from p nodes i = i + Z.of_nat j
                 ∧ nodes !! j = Some y ∧ p y = true.
Proof.
  intros Hin Hp. revert i.
  induction nodes as [|a nodes IH]; intros i; [by apply not_elem_of_nil in Hin |].
  cbn [findIndex_from]. destruct (p a) eqn:Hpa.
  - exists 0%nat, a. repeat split; [lia | done].
  - apply elem_of_cons in Hin as [-> | Hin]; [congruence |].
    destruct (IH Hin (i + 1)) as (j & y & Hj & Hy & Hpy).
    exists (S j), y. repeat split; [lia | done | done].
Qed.

Lemma findIndex_from_none (p : Node V → bool) nodes (i : Z) :
  (∀ x, x ∈ nodes → p x = false) → findIndex_from p nodes i = -1.
Proof.
  revert i. induction nodes as [|a nodes IH]; intros i Hp; [done |].
  cbn [findIndex_from]. rewrite (Hp a) by (apply elem_of_cons; by left).
  apply IH. intros x Hx. apply Hp. apply elem_of_cons. by right.
Qed.

(** The pair at positions [2m] and [2m+1] of a level is at position [m] of
    the next. *)
Lemma next_level_lookup nodes (m : nat) a b :
  nodes !! (2 * m)%nat = Some a → nodes !! (2 * m + 1)%nat = Some b →
  next_level nodes !! m = Some (hash a b).
Proof.
  revert nodes. induction m as [|m IH]; intros nodes Ha Hb.
  - destruct nodes as [|a0 [|b0 rest]]; try discriminate.
    simpl in Ha, Hb. by simplify_eq.
  - destruct nodes as [|a0 [|b0 rest]]; try discriminate.
    replace (2 * S m)%nat with (S (S (2 * m))) in Ha by lia.
    replace (2 * S m + 1)%nat with (S (S (2 * m + 1))) in Hb by lia.
    cbn [spec_next_level]. simpl. apply IH; [exact Ha | exact Hb].
Qed.

Hypothesis hash_comm : ∀ a b, hash a b = hash b a.
Hypothesis eq_spec : ∀ a b, eq a b = true ↔ a = b.

(** In a level of even length every node has a sibling, and the node
    combined with the sibling that [prove] picks is in the next level. *)
Lemma sibling_in_next_level nodes (half : nat) nodeProved :
  length nodes = (2 * half)%nat → nodeProved ∈ nodes →
  ∃ s, find_sibling V eq nodes nodeProved = Some s
       ∧ hash nodeProved s ∈ next_level nodes.
Proof.
  intros Hlen Hin. unfold find_sibling, findIndex.
  destruct (findIndex_from_found (fun node => eq node nodeProved) nodes 0
              nodeProved Hin) as (j & y & -> & Hy & Hpy); [by apply eq_spec |].
  apply eq_spec in Hpy as ->.
  pose proof (lookup_lt_Some _ _ _ Hy) as Hj.
  destruct (Nat.Even_or_Odd j) as [[m ->] | [m ->]].
  - replace (Z.rem (0 + Z.of_nat (2 * m)) 2 =? 0) with true
      by (symmetry; apply Z.eqb_eq; zify; Z.to_euclidean_division_equations; lia).
    replace (0 + Z.of_nat (2 * m) + 1 <? len nodes) with true
      by (symmetry; apply Z.ltb_lt; unfold len; lia).
    cbn [andb]. unfold js_get.
    destruct (Z.ltb_spec (0 + Z.of_nat (2 * m) + 1) 0); [lia |].
    replace (Z.to_nat (0 + Z.of_nat (2 * m) + 1)) with (2 * m + 1)%nat by lia.
    destruct (lookup_lt_is_Some_2 nodes (2 * m + 1)) as [s Hs]; [lia |].
    exists s. split; [exact Hs |].
    apply list_elem_of_lookup. exists m. by apply next_level_lookup.
  - replace (Z.rem (0 + Z.of_nat (2 * m + 1)) 2 =? 0) with false
      by (symmetry; apply Z.eqb_neq; zify; Z.to_euclidean_division_equations; lia).
    cbn [andb]. unfold js_get.
    destruct (Z.ltb_spec (0 + Z.of_nat (2 * m + 1) - 1) 0); [lia |].
    replace (Z.to_nat (0 + Z.of_nat (2 * m + 1) - 1)) with (2 * m)%nat by lia.
    destruct (lookup_lt_is_Some_2 nodes (2 * m)) as [s Hs]; [lia |].
    exists s. split; [exact Hs |].
    apply list_elem_of_lookup. exists m. rewrite hash_comm.
    by apply next_level_lookup.
Qed.

(** On [2^levels] nodes the loop of [prove] records a path from the proved
    node to the node the reduction ends in. *)
Lemma prove_for_path levels nodes nodeProved proof :
  length nodes = (2 ^ levels)%nat → nodeProved ∈ nodes →
  ∃ path, prove_for V hash eq levels nodes nodeProved proof = Ok (proof ++ path)
          ∧ spec_reduce V hash levels nodes
            = Some (fold_left hash path nodeProved).
Proof.
  revert nodes nodeProved proof.
  induction levels as [|levels IH]; intros nodes nodeProved proof Hlen Hin.
  - destruct nodes as [|a [|b rest]]; try discriminate.
    apply list_elem_of_singleton in Hin as ->.
    exists []. split; [by rewrite app_nil_r | reflexivity].
  - rewrite Nat.pow_succ_r' in Hlen.
    destruct (sibling_in_next_level nodes (2 ^ levels) nodeProved Hlen Hin)
      as (s & Hs & Hnext).
    cbn [prove_for]. rewrite Hs, step4_for_next_level. cbn [bind].
    assert (Hlen' : length (next_level nodes) = (2 ^ levels)%nat).
    { rewrite next_level_length, Hlen.
      replace (S (2 * 2 ^ levels)) with (1 + 2 * 2 ^ levels)%nat by lia.
      apply Nat.div2_succ_double. }
    destruct (IH (next_level nodes) (hash nodeProved s) (proof ++ [s]) Hlen' Hnext)
      as (path & -> & Hr).
    exists (s :: path). split; [by rewrite <- app_assoc |].
    assert (Hpos : (1 <= 2 ^ levels)%nat)
      by (pose proof (Nat.pow_nonzero 2 levels); lia).
    destruct nodes as [|a [|b rest]]; [simpl in Hlen; lia | simpl in Hlen; lia |].
    exact Hr.
Qed.

Lemma spec_reduce_more_fuel fuel fuel' nodes r :
  spec_reduce V hash fuel nodes = Some r → (fuel <= fuel')%nat →
  spec_reduce V hash fuel' nodes = Some r.
Proof.
  revert fuel' nodes. induction fuel as [|fuel IH]; intros fuel' nodes Hr Hf.
  - destruct nodes as [|a [|b rest]]; try discriminate.
    by destruct fuel'.
  - destruct fuel' as [|fuel']; [lia |].
    destruct nodes as [|a [|b rest]]; [done | done |].
    cbn [spec_reduce] in *. apply IH; [exact Hr | lia].
Qed.

(** Round trip where no level has an odd last node: in a tree of [2^k]
    leaves, with a hash that does not depend on the order of its arguments,
    [verify] accepts the proof [prove] generates for a leaf of the tree. *)
Lemma verify_prove_power_of_two (ls : list Leaf) (L : Leaf) (k : nat) :
  length ls = (2 ^ k)%nat → L ∈ ls →
  ∃ proof, prove Leaf V value hash eq ls L = Ok proof
           ∧ verify Leaf V value hash eq ls L proof = Ok true.
Proof.
  intros Hlen Hin.
  set (nodes := map (fun leaf => new_Node V (value leaf)) ls).
  assert (Hn : length nodes = (2 ^ k)%nat) by (subst nodes; by rewrite length_map).
  assert (HL : new_Node V (value L) ∈ nodes)
    by (subst nodes; apply (list_elem_of_fmap_2 (fun leaf => new_Node V (value leaf))), Hin).
  destruct (prove_for_path k nodes (new_Node V (value L)) [] Hn HL)
    as (path & Hp & Hr).
  assert (Hne : ls ≠ []).
  { intros ->. pose proof (Nat.pow_nonzero 2 k). simpl in Hlen. lia. }
  destruct (root_reduce value hash ls Hne) as (r & Hroot & Hred).
  fold nodes in Hred.
  assert (Hk : (k <= length ls)%nat).
  { rewrite Hlen. apply Nat.lt_le_incl, Nat.pow_gt_lin_r. lia. }
  rewrite (spec_reduce_more_fuel k (length ls) nodes _ Hr Hk) in Hred.
  injection Hred as <-.
  exists path. split.
  - unfold prove. fold nodes. rewrite Hn.
    unfold ceil_log2. rewrite Nat.log2_up_pow2 by lia.
    destruct k as [|k].
    + destruct nodes as [|a [|b rest]]; try discriminate.
      simpl in Hp. injection Hp as <-. reflexivity.
    + replace (len nodes =? 0) with false
        by (symmetry; apply Z.eqb_neq; unfold len; rewrite Hn;
            pose proof (Nat.pow_nonzero 2 (S k)); lia).
      replace (len nodes =? 1) with false
        by (symmetry; apply Z.eqb_neq; unfold len; rewrite Hn, Nat.pow_succ_r';
            pose proof (Nat.pow_nonzero 2 k); lia).
      exact Hp.
  - unfold verify. rewrite Hroot. cbn [bind]. f_equal. by apply eq_spec.
Qed.

End RoundTrip.

(** ** The odd last node of a level *)

Section CarriedNode.

Context {Leaf V : Type}.
Variable value : Leaf → V.
Variable hash : Node V → Node V → Node V.
Variable eq : Node V → Node V → bool.

Hypothesis eq_spec : ∀ a b, eq a b = true ↔ a = b.

Lemma eq_differ a b : a ≠ b → eq a b = false.
Proof.
  intros Hab. destruct (eq a b) eqn:E; [| done]. by apply eq_spec in E.
Qed.

Lemma eq_same a : eq a a = true.
Proof. by apply eq_spec. Qed.

(** The left neighbour is taken as sibling of the odd last node. *)
Lemma find_sibling_last_of_three (a b c : Node V) :
  a ≠ c → b ≠ c → find_sibling V eq [a; b; c] c = Some b.
Proof.
  intros Hac Hbc. unfold find_sibling, findIndex. cbn [findIndex_from].
  by rewrite (eq_differ a c Hac), (eq_differ b c Hbc), eq_same.
Qed.

(** A node that is not in the level has no sibling. *)
Lemma find_sibling_absent nodes nodeProved :
  nodeProved ∉ nodes → find_sibling V eq nodes nodeProved = None.
Proof.
  intros Hnot. unfold find_sibling, findIndex.
  rewrite findIndex_from_none; [reflexivity |].
  intros x Hx. apply eq_differ. by intros ->.
Qed.

(** Whatever the hash, in a level [a; b; c] of three different nodes
    [prove] records for [c], which is carried up, its left neighbour [b];
    unless [hash c b] happens to be a node of the next level, it records
    nothing more. *)
Lemma prove_for_last_of_three (a b c : Node V) :
  a ≠ c → b ≠ c → hash c b ≠ hash a b → hash c b ≠ c →
  prove_for V hash eq 2 [a; b; c] c [] = Ok [b].
Proof.
  intros Hac Hbc Hab Hc.
  cbn [prove_for]. rewrite !step4_for_next_level. cbn [bind spec_next_level].
  rewrite (find_sibling_last_of_three a b c Hac Hbc).
  rewrite find_sibling_absent; [reflexivity |].
  rewrite !elem_of_cons, elem_of_nil. tauto.
Qed.

(** So [prove] returns [[Node(B)]] for the last of three leaves, and
    [verify] compares the root with [combine(Node(C), Node(B))]. *)
Lemma prove_last_of_three (A B C : Leaf) :
  let a := new_Node V (value A) in
  let b := new_Node V (value B) in
  let c := new_Node V (value C) in
  a ≠ c → b ≠ c → hash c b ≠ hash a b → hash c b ≠ c →
  prove Leaf V value hash eq [A; B; C] C = Ok [b]
  ∧ verify Leaf V value hash eq [A; B; C] C [b]
    = Ok (eq (hash (hash a b) c) (hash c b)).
Proof.
  intros a b c Hac Hbc Hab Hc. split; [| reflexivity].
  by apply prove_for_last_of_three.
Qed.

End CarriedNode.

(** ** Properties of the tree *)

Section Properties.

Context {Leaf V : Type}.
Variable value : Leaf → V.
Variable gte : Leaf → Leaf → Z.
Variable hash : Node V → Node V → Node V.
Variable eq : Node V → Node V → bool.

Local Abbreviation node := (fun leaf : Leaf => new_Node V (value leaf)).
Local Abbreviation store := (gmap positive (list Leaf)).

(** Construction leaves in the store the sorted array, under the name the
    caller gave. *)
Lemma Tree_new_leaves (ls : positive) (h : store) (l : list Leaf) :
  h !! ls = Some l →
  leaves_of Leaf (Tree_new Leaf gte ls h).1 (Tree_new Leaf gte ls h).2
  = sort Leaf gte l.
Proof.
  intros Hl. unfold leaves_of, Tree_new. cbn [fst snd leaves].
  by rewrite lookup_alter_eq, Hl.
Qed.

(** C5: the root of two or more leaves is the node left by the pairwise
    reduction of the bottom level, where each level combines node[i] with
    node[i+1] and carries an odd last node up unchanged; three leaves
    A, B, C give combine(combine(A, B), C). *)
Theorem root_pairwise_reduction (ls : list Leaf) :
  (2 <= length ls)%nat →
  (∃ r, root Leaf V value hash ls = Ok r
        ∧ spec_reduce V hash (length ls) (map node ls) = Some r)
  ∧ (∀ A B C : Leaf,
       root Leaf V value hash [A; B; C]
       = Ok (hash (hash (node A) (node B)) (node C))).
Proof.
  intros Hlen. split.
  - apply root_reduce. intros ->. simpl in Hlen. lia.
  - reflexivity.
Qed.

(** C9: on a tree with at least one leaf, [prove] returns a proof for every
    argument, present in the tree or not; no read outside a level makes it
    throw. *)
Theorem prove_never_throws (t : Tree) (leaf : Leaf) (h : store) :
  leaves_of Leaf t h ≠ [] →
  ∃ proof, Tree_prove Leaf V value hash eq t leaf h = (Ok proof, h).
Proof.
  intros Hne. unfold Tree_prove.
  destruct (prove_total value hash eq (leaves_of Leaf t h) leaf Hne)
    as (proof & -> & _).
  by exists proof.
Qed.

(** C6: a tree can be built from an empty array; [root] and [prove] then
    throw their empty-tree error, and they throw exactly then: from a
    non-empty array both return. Neither changes the store. *)
Theorem empty_tree_errors (ls : positive) (h : store) (l : list Leaf)
    (leaf : Leaf) :
  h !! ls = Some l →
  let t := (Tree_new Leaf gte ls h).1 in
  let h' := (Tree_new Leaf gte ls h).2 in
  (l = [] →
     Tree_root Leaf V value hash t h' = (Throw (Error msg_root), h')
     ∧ Tree_prove Leaf V value hash eq t leaf h' = (Throw (Error msg_prove), h'))
  ∧ (l ≠ [] →
     (∃ r, Tree_root Leaf V value hash t h' = (Ok r, h'))
     ∧ (∃ proof, Tree_prove Leaf V value hash eq t leaf h' = (Ok proof, h'))).
Proof.
  intros Hl t h'. unfold Tree_root, Tree_prove. subst t h'.
  rewrite (Tree_new_leaves ls h l Hl). split.
  - intros ->. split; reflexivity.
  - intros Hne.
    assert (Hs : sort Leaf gte l ≠ []) by (intros Hs; by apply sort_nil_inv in Hs).
    split.
    + destruct (root_reduce value hash (sort Leaf gte l) Hs) as (r & -> & _).
      by exists r.
    + destruct (prove_total value hash eq (sort Leaf gte l) leaf Hs)
        as (proof & -> & _).
      by exists proof.
Qed.

(** C7: in a tree built from the single leaf L, [root] is the node of L,
    [prove] gives the empty proof and [verify] accepts it. *)
Theorem single_leaf (ls : positive) (h : store) (L : Leaf) :
  (∀ n, eq n n = true) →
  h !! ls = Some [L] →
  let t := (Tree_new Leaf gte ls h).1 in
  let h' := (Tree_new Leaf gte ls h).2 in
  Tree_root Leaf V value hash t h' = (Ok (node L), h')
  ∧ Tree_prove Leaf V value hash eq t L h' = (Ok [], h')
  ∧ Tree_verify Leaf V value hash eq t L [] h' = (Ok true, h').
Proof.
  intros Heq Hl t h'. unfold Tree_root, Tree_prove, Tree_verify. subst t h'.
  rewrite (Tree_new_leaves ls h [L] Hl). cbn [sort insert].
  split; [reflexivity |]. split; [reflexivity |].
  unfold verify.
  change (root Leaf V value hash [L]) with (@Ok (Node V) (node L)).
  cbn [bind fold_left]. by rewrite Heq.
Qed.

(** C4, amended: on a tree with at least one leaf [verify] returns a
    boolean for every leaf and every proof, the comparison of the root with
    the fold of [hash] over the proof from the node of the leaf; on a tree
    without leaves it throws the empty-tree error of [root]. *)
Theorem verify_outcome (t : Tree) (leaf : Leaf) (proof : list (Node V))
    (h : store) :
  (leaves_of Leaf t h ≠ [] →
     ∃ r, Tree_root Leaf V value hash t h = (Ok r, h)
          ∧ Tree_verify Leaf V value hash eq t leaf proof h
            = (Ok (eq r (fold_left hash proof (node leaf))), h))
  ∧ (leaves_of Leaf t h = [] →
     Tree_verify Leaf V value hash eq t leaf proof h
     = (Throw (Error msg_root), h)).
Proof.
  unfold Tree_root, Tree_verify, verify. split.
  - intros Hne.
    destruct (root_reduce value hash (leaves_of Leaf t h) Hne) as (r & -> & _).
    by exists r.
  - by intros ->.
Qed.

(** [root] reads the leaves through their values only. *)
Lemma root_values (l l' : list Leaf) :
  map value l = map value l' →
  root Leaf V value hash l = root Leaf V value hash l'.
Proof.
  intros Hv. unfold root.
  rewrite <- !(List.map_map value (new_Node V)). by rewrite Hv.
Qed.

(** C3: when [gte] is a consistent comparator that holds two leaves equal
    only if they have the same value, trees built from two arrangements of
    the same leaves have the same root. *)
Theorem root_independent_of_order (ls1 ls2 : positive) (h1 h2 : store)
    (l1 l2 : list Leaf) :
  consistent_comparator Leaf gte →
  (∀ a b, gte a b = 0 → value a = value b) →
  h1 !! ls1 = Some l1 →
  h2 !! ls2 = Some l2 →
  Permutation l1 l2 →
  (Tree_root Leaf V value hash
     (Tree_new Leaf gte ls1 h1).1 (Tree_new Leaf gte ls1 h1).2).1
  = (Tree_root Leaf V value hash
       (Tree_new Leaf gte ls2 h2).1 (Tree_new Leaf gte ls2 h2).2).1.
Proof.
  intros Hcf Hv H1 H2 Hp. unfold Tree_root. cbn [fst].
  rewrite (Tree_new_leaves ls1 h1 l1 H1), (Tree_new_leaves ls2 h2 l2 H2).
  apply root_values. by apply sort_values.
Qed.

(** C10: the constructor sorts the array of the caller in place: the tree
    keeps the very reference it was given, after the call the array under
    that reference holds the same leaves as before, rearranged (in ascending
    order when the comparator is consistent), and no other array of the
    store has changed. *)
Theorem constructor_sorts_in_place (ls : positive) (h : store)
    (l : list Leaf) :
  h !! ls = Some l →
  let t := (Tree_new Leaf gte ls h).1 in
  let h' := (Tree_new Leaf gte ls h).2 in
  leaves t = ls
  ∧ (∃ l', h' !! ls = Some l' ∧ leaves_of Leaf t h' = l' ∧ Permutation l l'
           ∧ (consistent_comparator Leaf gte →
              Sorted (fun u v => gte u v <= 0) l'))
  ∧ (∀ r, r ≠ ls → h' !! r = h !! r).
Proof.
  intros Hl t h'. split; [reflexivity |]. split.
  - exists (sort Leaf gte l). subst t h'. unfold Tree_new. cbn [fst snd].
    split; [by rewrite lookup_alter_eq, Hl |].
    split; [unfold leaves_of; cbn [leaves]; by rewrite lookup_alter_eq, Hl |].
    split; [apply sort_Permutation |].
    intros Hcf. by apply sort_Sorted.
  - intros r Hr. subst h'. unfold Tree_new. cbn [snd].
    by rewrite lookup_alter_ne.
Qed.

End Properties.

(** ** The properties at the sample instance *)

Module SampleFacts.

Import Sample.

Lemma gteZ_consistent : consistent_comparator Z gteZ.
Proof. split; unfold gteZ; intros; lia. Qed.

Lemma gteZ_value (a b : Z) : gteZ a b = 0 → id a = id b.
Proof. unfold gteZ, id. lia. Qed.

Lemma eqZ_refl (n : Node Z) : eqZ n n = true.
Proof. unfold eqZ. apply Z.eqb_refl. Qed.

Lemma eqZ_spec (a b : Node Z) : eqZ a b = true ↔ a = b.
Proof.
  destruct a as [x], b as [y]. unfold eqZ. cbn [node_value].
  rewrite Z.eqb_eq. split; [by intros -> | by intros [= ->]].
Qed.

Lemma hashZ_comm (a b : Node Z) : hashZ a b = hashZ b a.
Proof.
  unfold hashZ, mix. f_equal.
  by rewrite (Z.add_comm (node_value Z a)), Z.max_comm.
Qed.

Lemma perm_312 : Permutation [3; 1; 2] [1; 2; 3].
Proof.
  apply (perm_trans (perm_swap 1 3 [2])). apply perm_skip. apply perm_swap.
Qed.

End SampleFacts.

Import Sample SampleFacts.

Lemma root_pairwise_reduction_witness :
  (∃ r, root Z Z id hashZ [1; 2; 3] = Ok r
        ∧ spec_reduce Z hashZ 3 [N 1; N 2; N 3] = Some r)
  ∧ (∀ A B C : Z,
       root Z Z id hashZ [A; B; C] = Ok (hashZ (hashZ (N A) (N B)) (N C))).
Proof. apply (root_pairwise_reduction id hashZ [1; 2; 3]). simpl. lia. Defined.

Lemma prove_never_throws_witness :
  ∃ proof, Tree_prove Z Z id hashZ eqZ (mkTree 1) 9 {[1%positive := [1; 2; 3]]}
           = (Ok proof, {[1%positive := [1; 2; 3]]}).
Proof.
  apply (prove_never_throws id hashZ eqZ (mkTree 1) 9 {[1%positive := [1; 2; 3]]}).
  discriminate.
Defined.

Lemma empty_tree_errors_witness :
  let t := (Tree_new Z gteZ 1 {[1%positive := []]}).1 in
  let h' := (Tree_new Z gteZ 1 {[1%positive := []]}).2 in
  (@nil Z = [] →
     Tree_root Z Z id hashZ t h' = (Throw (Error msg_root), h')
     ∧ Tree_prove Z Z id hashZ eqZ t 5 h' = (Throw (Error msg_prove), h'))
  ∧ (@nil Z ≠ [] →
     (∃ r, Tree_root Z Z id hashZ t h' = (Ok r, h'))
     ∧ (∃ proof, Tree_prove Z Z id hashZ eqZ t 5 h' = (Ok proof, h'))).
Proof.
  apply (empty_tree_errors id gteZ hashZ eqZ 1%positive {[1%positive := []]} [] 5).
  reflexivity.
Defined.

Lemma single_leaf_witness :
  let t := (Tree_new Z gteZ 1 {[1%positive := [4]]}).1 in
  let h' := (Tree_new Z gteZ 1 {[1%positive := [4]]}).2 in
  Tree_root Z Z id hashZ t h' = (Ok (N 4), h')
  ∧ Tree_prove Z Z id hashZ eqZ t 4 h' = (Ok [], h')
  ∧ Tree_verify Z Z id hashZ eqZ t 4 [] h' = (Ok true, h').
Proof.
  apply (single_leaf id gteZ hashZ eqZ 1%positive {[1%positive := [4]]} 4).
  - exact eqZ_refl.
  - reflexivity.
Defined.

Lemma verify_outcome_witness :
  ∃ r, Tree_root Z Z id hashZ (mkTree 1) {[1%positive := [1; 2]]}
       = (Ok r, {[1%positive := [1; 2]]})
       ∧ Tree_verify Z Z id hashZ eqZ (mkTree 1) 1 [N 2] {[1%positive := [1; 2]]}
         = (Ok (eqZ r (fold_left hashZ [N 2] (N 1))), {[1%positive := [1; 2]]}).
Proof.
  apply (verify_outcome id hashZ eqZ (mkTree 1) 1 [N 2] {[1%positive := [1; 2]]}).
  discriminate.
Defined.

Lemma root_independent_of_order_witness :
  (Tree_root Z Z id hashZ
     (Tree_new Z gteZ 1 {[1%positive := [3; 1; 2]]}).1
     (Tree_new Z gteZ 1 {[1%positive := [3; 1; 2]]}).2).1
  = (Tree_root Z Z id hashZ
       (Tree_new Z gteZ 2 {[2%positive := [1; 2; 3]]}).1
       (Tree_new Z gteZ 2 {[2%positive := [1; 2; 3]]}).2).1.
Proof.
  apply (root_independent_of_order id gteZ hashZ 1%positive 2%positive
           {[1%positive := [3; 1; 2]]} {[2%positive := [1; 2; 3]]}
           [3; 1; 2] [1; 2; 3]).
  - exact gteZ_consistent.
  - exact gteZ_value.
  - reflexivity.
  - reflexivity.
  - exact perm_312.
Defined.

Lemma constructor_sorts_in_place_witness :
  let t := (Tree_new Z gteZ 1 {[1%positive := [3; 1; 2]]}).1 in
  let h' := (Tree_new Z gteZ 1 {[1%positive := [3; 1; 2]]}).2 in
  leaves t = 1%positive
  ∧ (∃ l', h' !! 1%positive = Some l' ∧ leaves_of Z t h' = l'
           ∧ Permutation [3; 1; 2] l'
           ∧ (consistent_comparator Z gteZ →
              Sorted (fun u v => gteZ u v <= 0) l'))
  ∧ (∀ r, r ≠ 1%positive → h' !! r = ({[1%positive := [3; 1; 2]]} : gmap positive (list Z)) !! r).
Proof.
  apply (constructor_sorts_in_place gteZ 1%positive {[1%positive := [3; 1; 2]]}
           [3; 1; 2]).
  reflexivity.
Defined.

(** The caller's array [3, 1, 2] reads [1, 2, 3] after the construction. *)
Lemma constructor_changes_the_callers_array :
  (Tree_new Z gteZ 1 {[1%positive := [3; 1; 2]]}).2 !! 1%positive
  = Some [1; 2; 3].
Proof. reflexivity. Qed.

(** With four leaves no node is carried up, and every generated proof is
    accepted. *)
Lemma verify_prove_four_leaves (L : Z) :
  L ∈ [1; 2; 3; 4] →
  ∃ proof, prove Z Z id hashZ eqZ [1; 2; 3; 4] L = Ok proof
           ∧ verify Z Z id hashZ eqZ [1; 2; 3; 4] L proof = Ok true.
Proof.
  apply (verify_prove_power_of_two id hashZ eqZ hashZ_comm eqZ_spec
           [1; 2; 3; 4] L 2). reflexivity.
Qed.

(** ** Where the code departs from the specification

    Step 2 of [prove] takes the left neighbour [nodes[provedIdx - 1]] as
    the sibling whenever the proved node has no right neighbour, also when
    the proved node is the odd last node of its level, which step 4 (and
    [root]) carry up unpaired. The entry recorded there leads the proved
    node off the path to the root. [hashZ] does not depend on the order of
    its arguments, so the order of a pair plays no part below. *)

(** C1: the tree built from the leaves 3, 1, 2 holds the leaf 3, and
    [verify] rejects the proof that [prove] generates for it: the proof is
    the single entry Node(2), and combine(Node(3), Node(2)) is not the
    root. *)
Theorem verify_rejects_generated_proof :
  let t := (Tree_new Z gteZ 1 {[1%positive := [3; 1; 2]]}).1 in
  let h := (Tree_new Z gteZ 1 {[1%positive := [3; 1; 2]]}).2 in
  h !! 1%positive = Some [1; 2; 3]
  ∧ Tree_prove Z Z id hashZ eqZ t 3 h = (Ok [N 2], h)
  ∧ Tree_root Z Z id hashZ t h = (Ok (N 74), h)
  ∧ Tree_verify Z Z id hashZ eqZ t 3 [N 2] h = (Ok false, h).
Proof. repeat split; reflexivity. Qed.

(** C2: in the sorted tree of the leaves A = 1, B = 2, C = 3 the node of C
    is carried up unpaired at the bottom level, yet [prove] records an
    entry for that level, Node(B), and none for the next: it returns
    [Node(B)] where the specification has [combine(Node(A), Node(B))], the
    proof that [verify] accepts. *)
Theorem prove_records_entry_for_carried_node :
  prove Z Z id hashZ eqZ [1; 2; 3] 3 = Ok [N 2]
  ∧ find_sibling Z eqZ [N 1; N 2; N 3] (N 3) = Some (N 2)
  ∧ spec_paired 3 2 = false
  ∧ [N 2] ≠ [hashZ (N 1) (N 2)]
  ∧ verify Z Z id hashZ eqZ [1; 2; 3] 3 [hashZ (N 1) (N 2)] = Ok true.
Proof. repeat split; try reflexivity. discriminate. Qed.

(** C8: in the sorted tree of the seven leaves 1 to 7 the node of the last
    leaf is carried up at the bottom level and has a pairing partner at the
    two levels above; the proof generated for it has one entry, not two.
    The loop runs [ceil_log2 7 = 3] levels, the height of the reduction. *)
Theorem proof_length_differs_from_paired_levels :
  prove Z Z id hashZ eqZ [1; 2; 3; 4; 5; 6; 7] 7 = Ok [N 6]
  ∧ spec_paired_levels 7 7 6 = 2%nat
  ∧ ceil_log2 7 = 3%nat
  ∧ spec_height 7 7 = 3%nat.
Proof. repeat split; reflexivity. Qed.

(** C4 as stated fails on a tree built from an empty array: [verify] throws
    there and returns no boolean. *)
Lemma verify_throws_on_empty_tree :
  let t := (Tree_new Z gteZ 1 {[1%positive := []]}).1 in
  let h := (Tree_new Z gteZ 1 {[1%positive := []]}).2 in
  (Tree_verify Z Z id hashZ eqZ t 1 [] h).1 = Throw (Error msg_root)
  ∧ ¬ ∃ b : bool, (Tree_verify Z Z id hashZ eqZ t 1 [] h).1 = Ok b.
Proof. split; [reflexivity | intros [b Hb]; discriminate Hb]. Qed.

(** [verify] always puts the running node on the left of [hash]. With a
    hash that depends on the order of its arguments the proof of a right
    child is rejected already in a tree of two leaves. *)
Lemma order_sensitive_hash_right_leaf :
  prove Z Z id hashLR eqZ [1; 2] 2 = Ok [N 1]
  ∧ root Z Z id hashLR [1; 2] = Ok (N 8)
  ∧ verify Z Z id hashLR eqZ [1; 2] 2 [N 1] = Ok false.
Proof. repeat split; reflexivity. Qed.

(** ** The levels of the reduction *)

Section Levels.

Context {Leaf V : Type}.
Variable value : Leaf → V.
Variable hash : Node V → Node V → Node V.
Variable eq : Node V → Node V → bool.

Local Abbreviation next_level := (spec_next_level V hash).
Local Abbreviation level := (spec_level V hash).

Lemma level_single k (a : Node V) : level k [a] = [a].
Proof. induction k as [|k IH]; [done | exact IH]. Qed.

Lemma level_nil k : level k [] = [].
Proof. induction k as [|k IH]; [done | exact IH]. Qed.

Lemma level_length_pos k nodes : nodes ≠ [] → level k nodes ≠ [].
Proof.
  revert nodes. induction k as [|k IH]; intros nodes Hne; [done |].
  cbn [spec_level]. apply IH. intros Hn.
  pose proof (next_level_length hash nodes) as Hlen. rewrite Hn in Hlen.
  destruct nodes as [|a [|b rest]]; [done | done | simpl in Hlen; lia].
Qed.

(** [ceil_log2 n] reductions bring [n] nodes down to the root's node, and
    no fewer do. *)
Lemma level_root k nodes :
  nodes ≠ [] → (ceil_log2 (length nodes) <= k)%nat →
  ∃ r, level k nodes = [r]
       ∧ spec_reduce V hash (length nodes) nodes = Some r.
Proof.
  unfold ceil_log2. revert nodes.
  induction k as [|k IH]; intros nodes Hne Hk.
  - assert (Hlen : (length nodes <= 1)%nat) by (apply Nat.log2_up_null; lia).
    destruct nodes as [|a [|b rest]]; [done | | simpl in Hlen; lia].
    by exists a.
  - destruct nodes as [|a [|b rest]]; [done | |].
    + exists a. split; [apply level_single | reflexivity].
    + cbn [spec_level].
      pose proof (next_level_length hash (a :: b :: rest)) as Hlen.
      pose proof (div2_succ_lt (length (a :: b :: rest))) as Hlt.
      rewrite log2_up_half in Hk by (simpl; lia).
      destruct (IH (next_level (a :: b :: rest))) as (r & Hr & Hs).
      * intros Hn. rewrite Hn in Hlen. simpl in Hlen. lia.
      * rewrite Hlen. lia.
      * exists r. split; [exact Hr |].
        change (spec_reduce V hash (length (a :: b :: rest)) (a :: b :: rest))
          with (spec_reduce V hash (length (b :: rest))
                  (next_level (a :: b :: rest))).
        apply (spec_reduce_more_fuel hash _ _ _ _ Hs).
        rewrite Hlen. simpl length in *. lia.
Qed.

Lemma level_not_yet k nodes :
  (k < ceil_log2 (length nodes))%nat → (2 <= length (level k nodes))%nat.
Proof.
  unfold ceil_log2. revert nodes. induction k as [|k IH]; intros nodes Hk.
  - cbn [spec_level].
    destruct (Nat.le_gt_cases (length nodes) 1) as [H1 | H1]; [| lia].
    apply Nat.log2_up_null in H1. lia.
  - cbn [spec_level]. apply IH. rewrite next_level_length.
    destruct (Nat.le_gt_cases (length nodes) 1) as [H1 | H1].
    + apply Nat.log2_up_null in H1. lia.
    + rewrite log2_up_half in Hk by lia. lia.
Qed.

(** The [while] loop of [root] with [fuel] tests of its condition: it
    passes from level to level and needs one test to leave. *)
Lemma root_while_level fuel nodes :
  (ceil_log2 (length nodes) < fuel)%nat →
  root_while V hash fuel nodes = Ok (level (ceil_log2 (length nodes)) nodes).
Proof.
  unfold ceil_log2. revert nodes. induction fuel as [|fuel IH]; intros nodes Hf; [lia |].
  cbn [root_while]. destruct (Z.ltb_spec 1 (len nodes)) as [H1 | H1].
  - rewrite root_for_next_level. cbn [bind].
    unfold len in H1. rewrite log2_up_half in * by lia. cbn [spec_level].
    rewrite <- (next_level_length hash nodes). apply IH.
    rewrite next_level_length. lia.
  - unfold len in H1. by rewrite (Nat.log2_up_eqn0 (length nodes)) by lia.
Qed.

Lemma root_while_short fuel nodes :
  (fuel <= ceil_log2 (length nodes))%nat →
  root_while V hash fuel nodes = Throw OutOfFuel.
Proof.
  unfold ceil_log2. revert nodes. induction fuel as [|fuel IH]; intros nodes Hf; [done |].
  cbn [root_while]. destruct (Z.ltb_spec 1 (len nodes)) as [H1 | H1].
  - rewrite root_for_next_level. cbn [bind]. apply IH.
    unfold len in H1. rewrite log2_up_half in Hf by lia.
    rewrite next_level_length. lia.
  - unfold len in H1. rewrite (Nat.log2_up_eqn0 (length nodes)) in Hf by lia. lia.
Qed.

End Levels.

(** ** Proofs that lead to the root *)

Section Paths.

Context {Leaf V : Type}.
Variable value : Leaf → V.
Variable hash : Node V → Node V → Node V.
Variable eq : Node V → Node V → bool.

Local Abbreviation next_level := (spec_next_level V hash).
Local Abbreviation level := (spec_level V hash).
Local Abbreviation node := (fun leaf : Leaf => new_Node V (value leaf)).

(** [findIndex] stops at the first match: no later than any position that
    matches. *)
Lemma findIndex_from_first (p : Node V → bool) nodes (s : Z) (i : nat) x :
  nodes !! i = Some x → p x = true →
  ∃ (j : nat) y, (j <= i)%nat ∧ findIndex_from p nodes s = s + Z.of_nat j
                 ∧ nodes !! j = Some y ∧ p y = true.
Proof.
  revert s i. induction nodes as [|a nodes IH]; intros s i Hi Hp; [done |].
  cbn [findIndex_from]. destruct (p a) eqn:Hpa.
  - exists 0%nat, a. repeat split; [lia | lia | done].
  - destruct i as [|i]; [simpl in Hi; congruence |].
    destruct (IH (s + 1) i Hi Hp) as (j & y & Hji & Hj & Hy & Hpy).
    exists (S j), y. repeat split; [lia | lia | done | done].
Qed.

Hypothesis eq_refl : ∀ a, eq a a = true.

(** The first node of a level has its right neighbour as sibling, when
    there is one. *)
Lemma find_sibling_first a rest :
  find_sibling V eq (a :: rest) a = head rest.
Proof.
  unfold find_sibling, findIndex. cbn [findIndex_from]. rewrite eq_refl.
  destruct rest as [|b rest]; [reflexivity |].
  replace (0 + 1 <? len (a :: b :: rest)) with true
    by (symmetry; apply Z.ltb_lt; rewrite !len_cons; pose proof (len_nonneg rest); lia).
  reflexivity.
Qed.

(** From the first node of a level the loop of [prove] records a path to
    the first node of the level it stops at, whatever the hash. *)
Lemma prove_for_first levels a rest proof :
  ∃ path rest',
    prove_for V hash eq levels (a :: rest) a proof = Ok (proof ++ path)
    ∧ level levels (a :: rest) = fold_left hash path a :: rest'
    ∧ (length path <= levels)%nat
    ∧ ((levels <= length path)%nat ∨ rest' = []).
Proof.
  revert a rest proof. induction levels as [|levels IH]; intros a rest proof.
  - exists [], rest. rewrite app_nil_r.
    split; [reflexivity |]. split; [reflexivity |]. split; [done | by left].
  - cbn [prove_for]. rewrite find_sibling_first, step4_for_next_level.
    cbn [bind spec_level]. destruct rest as [|b rest]; cbn [head spec_next_level].
    + destruct (IH a [] proof) as (path & rest' & -> & Hl & Hlen & Hfull).
      exists path, rest'. split; [reflexivity |]. split; [exact Hl |].
      split; [lia |].
      right. rewrite level_single in Hl. by injection Hl as _ <-.
    + destruct (IH (hash a b) (next_level rest) (proof ++ [b]))
        as (path & rest' & -> & Hl & Hlen & Hfull).
      exists (b :: path), rest'. rewrite <- app_assoc.
      split; [reflexivity |]. split; [exact Hl |]. split; [simpl; lia |].
      destruct Hfull as [Hfull | Hfull]; [left; simpl; lia | by right].
Qed.

(** A returned path that ends in the first node of the last level is a
    proof [verify] accepts. *)
Lemma round_trip_finish (ls : list Leaf) (L : Leaf) path rest :
  ls ≠ [] →
  prove_for V hash eq (ceil_log2 (length ls)) (map node ls) (node L) []
  = Ok path →
  level (ceil_log2 (length ls)) (map node ls)
  = fold_left hash path (node L) :: rest →
  prove Leaf V value hash eq ls L = Ok path
  ∧ verify Leaf V value hash eq ls L path = Ok true.
Proof.
  intros Hne Hp Hl.
  destruct (level_root hash (ceil_log2 (length ls)) (map node ls))
    as (r & Hr & Hs).
  { by destruct ls. }
  { by rewrite length_map. }
  rewrite Hr in Hl. injection Hl as Hroot _.
  destruct (root_reduce value hash ls Hne) as (r' & Hroot' & Hs').
  rewrite length_map in Hs. rewrite Hs in Hs'. injection Hs' as <-.
  split.
  - unfold prove. rewrite length_map.
    destruct ls as [|l1 [|l2 ls]]; [done | |].
    + simpl in Hp. by injection Hp as <-.
    + replace (len (map _ (l1 :: l2 :: ls)) =? 0) with false
        by (symmetry; apply Z.eqb_neq; unfold len; simpl; lia).
      replace (len (map _ (l1 :: l2 :: ls)) =? 1) with false
        by (symmetry; apply Z.eqb_neq; unfold len; simpl; lia).
      exact Hp.
  - unfold verify. rewrite Hroot'. cbn [bind]. by rewrite <- Hroot, eq_refl.
Qed.

End Paths.

(** ** Leaves of a complete left part *)

Section LeftBlock.

Context {Leaf V : Type}.
Variable value : Leaf → V.
Variable hash : Node V → Node V → Node V.
Variable eq : Node V → Node V → bool.

Local Abbreviation next_level := (spec_next_level V hash).
Local Abbreviation level := (spec_level V hash).
Local Abbreviation node := (fun leaf : Leaf => new_Node V (value leaf)).

Lemma lookup_map_node (ls : list Leaf) (i : nat) (L : Leaf) :
  ls !! i = Some L → map node ls !! i = Some (node L).
Proof.
  revert i. induction ls as [|l ls IH]; intros i Hi; [done |].
  destruct i as [|i]; [by injection Hi as -> | by apply IH].
Qed.

Lemma pow2_le_ceil_log2 j n : (2 ^ j <= n)%nat → (j <= ceil_log2 n)%nat.
Proof.
  intros Hj. unfold ceil_log2. rewrite <- (Nat.log2_up_pow2 j) by lia.
  by apply Nat.log2_up_le_mono.
Qed.

Hypothesis hash_comm : ∀ a b, hash a b = hash b a.
Hypothesis eq_spec : ∀ a b, eq a b = true ↔ a = b.

(** Among the first [2b] nodes of a level every node has a sibling, and
    combined with it is among the first [b] nodes of the next level. *)
Lemma sibling_step nodes (b i : nat) nodeProved :
  (i < 2 * b)%nat → (2 * b <= length nodes)%nat → nodes !! i = Some nodeProved →
  ∃ s (i' : nat), find_sibling V eq nodes nodeProved = Some s
                  ∧ (i' < b)%nat
                  ∧ next_level nodes !! i' = Some (hash nodeProved s).
Proof.
  intros Hi Hb Hn. unfold find_sibling, findIndex.
  destruct (findIndex_from_first (fun x => eq x nodeProved) nodes 0 i
              nodeProved Hn) as (j & y & Hji & -> & Hy & Hpy); [by apply eq_spec |].
  apply eq_spec in Hpy as ->.
  destruct (Nat.Even_or_Odd j) as [[m ->] | [m ->]].
  - replace (Z.rem (0 + Z.of_nat (2 * m)) 2 =? 0) with true
      by (symmetry; apply Z.eqb_eq; zify; Z.to_euclidean_division_equations; lia).
    replace (0 + Z.of_nat (2 * m) + 1 <? len nodes) with true
      by (symmetry; apply Z.ltb_lt; unfold len; lia).
    cbn [andb]. unfold js_get.
    destruct (Z.ltb_spec (0 + Z.of_nat (2 * m) + 1) 0); [lia |].
    replace (Z.to_nat (0 + Z.of_nat (2 * m) + 1)) with (2 * m + 1)%nat by lia.
    destruct (lookup_lt_is_Some_2 nodes (2 * m + 1)) as [s Hs]; [lia |].
    exists s, m. split; [exact Hs |]. split; [lia |].
    by apply next_level_lookup.
  - replace (Z.rem (0 + Z.of_nat (2 * m + 1)) 2 =? 0) with false
      by (symmetry; apply Z.eqb_neq; zify; Z.to_euclidean_division_equations; lia).
    cbn [andb]. unfold js_get.
    destruct (Z.ltb_spec (0 + Z.of_nat (2 * m + 1) - 1) 0); [lia |].
    replace (Z.to_nat (0 + Z.of_nat (2 * m + 1) - 1)) with (2 * m)%nat by lia.
    destruct (lookup_lt_is_Some_2 nodes (2 * m)) as [s Hs]; [lia |].
    exists s, m. split; [exact Hs |]. split; [lia |].
    rewrite hash_comm. by apply next_level_lookup.
Qed.

(** From a node among the first [2^j] of at least [2^j] nodes the loop of
    [prove] records a path to the first node of the level it stops at. *)
Lemma prove_for_left_block j levels nodes nodeProved proof (i : nat) :
  (j <= levels)%nat → (2 ^ j <= length nodes)%nat → (i < 2 ^ j)%nat →
  nodes !! i = Some nodeProved →
  ∃ path rest,
    prove_for V hash eq levels nodes nodeProved proof = Ok (proof ++ path)
    ∧ level levels nodes = fold_left hash path nodeProved :: rest
    ∧ (j <= length path <= levels)%nat.
Proof.
  revert levels nodes nodeProved proof i.
  induction j as [|j IH]; intros levels nodes nodeProved proof i Hj Hlen Hi Hn.
  - replace i with 0%nat in Hn by (simpl in Hi; lia).
    destruct nodes as [|a rest]; [done |]. injection Hn as ->.
    destruct (prove_for_first hash eq (fun a => proj2 (eq_spec a a) eq_refl)
                levels nodeProved rest proof)
      as (path & rest' & Hp & Hl & Hle & _).
    exists path, rest'. split; [exact Hp |]. split; [exact Hl | lia].
  - destruct levels as [|levels]; [lia |].
    rewrite Nat.pow_succ_r' in Hlen, Hi.
    destruct (sibling_step nodes (2 ^ j) i nodeProved Hi Hlen Hn)
      as (s & i' & Hs & Hi' & Hn').
    cbn [prove_for spec_level]. rewrite Hs, step4_for_next_level. cbn [bind].
    destruct (IH levels (next_level nodes) (hash nodeProved s) (proof ++ [s]) i')
      as (path & rest & -> & Hl & Hle); [lia | | exact Hi' | exact Hn' |].
    { rewrite next_level_length.
      pose proof (div2_succ_bounds (length nodes)). lia. }
    exists (s :: path), rest. rewrite <- app_assoc.
    split; [reflexivity |]. split; [exact Hl | simpl; lia].
Qed.

End LeftBlock.

(** ** What a proof holds *)

Section ProofEntries.

Context {Leaf V : Type}.
Variable value : Leaf → V.
Variable hash : Node V → Node V → Node V.
Variable eq : Node V → Node V → bool.

Local Abbreviation next_level := (spec_next_level V hash).
Local Abbreviation level := (spec_level V hash).
Local Abbreviation node := (fun leaf : Leaf => new_Node V (value leaf)).

Lemma js_get_elem (nodes : list (Node V)) (i : Z) s :
  js_get nodes i = Some s → s ∈ nodes.
Proof.
  unfold js_get. destruct (i <? 0); [done |].
  intros Hs. apply list_elem_of_lookup. by exists (Z.to_nat i).
Qed.

(** The sibling [prove] picks is a node of the level. *)
Lemma find_sibling_elem nodes nodeProved s :
  find_sibling V eq nodes nodeProved = Some s → s ∈ nodes.
Proof.
  unfold find_sibling.
  destruct (_ && _); apply js_get_elem.
Qed.

Lemma prove_for_entries levels nodes nodeProved proof proof' :
  prove_for V hash eq levels nodes nodeProved proof = Ok proof' →
  ∀ s, s ∈ proof' → s ∈ proof ∨ ∃ k, (k < levels)%nat ∧ s ∈ level k nodes.
Proof.
  revert nodes nodeProved proof.
  induction levels as [|levels IH]; intros nodes nodeProved proof Hp s Hs.
  - injection Hp as <-. by left.
  - cbn [prove_for] in Hp. rewrite step4_for_next_level in Hp.
    destruct (find_sibling V eq nodes nodeProved) as [s0|] eqn:Hsib;
      cbn [bind] in Hp.
    + destruct (IH _ _ _ Hp s Hs) as [Hin | (k & Hk & Hin)].
      * apply elem_of_app in Hin as [Hin | Hin]; [by left |].
        apply list_elem_of_singleton in Hin as ->. right. exists 0%nat.
        split; [lia |]. by apply find_sibling_elem in Hsib.
      * right. exists (S k). split; [lia | exact Hin].
    + destruct (IH _ _ _ Hp s Hs) as [Hin | (k & Hk & Hin)]; [by left |].
      right. exists (S k). split; [lia | exact Hin].
Qed.

(** [prove] reads the leaves through their values only. *)
Lemma prove_values (l l' : list Leaf) (L : Leaf) :
  map value l = map value l' →
  prove Leaf V value hash eq l L = prove Leaf V value hash eq l' L.
Proof.
  intros Hv. unfold prove.
  rewrite <- !(List.map_map value (new_Node V)). by rewrite Hv.
Qed.

Hypothesis eq_spec : ∀ a b, eq a b = true ↔ a = b.

(** A node that is in none of the levels is never given a sibling. *)
Lemma prove_for_absent levels nodes nodeProved proof :
  (∀ k, (k < levels)%nat → nodeProved ∉ level k nodes) →
  prove_for V hash eq levels nodes nodeProved proof = Ok proof.
Proof.
  revert nodes. induction levels as [|levels IH]; intros nodes Habs; [done |].
  cbn [prove_for]. rewrite step4_for_next_level.
  rewrite (find_sibling_absent eq eq_spec) by (apply (Habs 0%nat); lia).
  cbn [bind]. apply IH. intros k Hk. apply (Habs (S k)). lia.
Qed.

End ProofEntries.

(** ** Further properties of the tree *)

Section MoreProperties.

Context {Leaf V : Type}.
Variable value : Leaf → V.
Variable gte : Leaf → Leaf → Z.
Variable hash : Node V → Node V → Node V.
Variable eq : Node V → Node V → bool.

Local Abbreviation node := (fun leaf : Leaf => new_Node V (value leaf)).
Local Abbreviation store := (gmap positive (list Leaf)).
Local Abbreviation level := (spec_level V hash).

(** A leaf among the first [2^j] of at least [2^j] stored leaves gets a
    proof of at least [j] entries that [verify] accepts. *)
Lemma left_block_path (ls : list Leaf) (L : Leaf) (j i : nat) :
  (∀ a b, hash a b = hash b a) →
  (∀ a b, eq a b = true ↔ a = b) →
  (2 ^ j <= length ls)%nat → (i < 2 ^ j)%nat → ls !! i = Some L →
  ∃ proof, prove Leaf V value hash eq ls L = Ok proof
           ∧ (j <= length proof <= ceil_log2 (length ls))%nat
           ∧ verify Leaf V value hash eq ls L proof = Ok true.
Proof.
  intros Hcomm Heq Hj Hi HL.
  destruct (prove_for_left_block hash eq Hcomm Heq j (ceil_log2 (length ls))
              (map node ls) (node L) [] i) as (path & rest & Hp & Hl & Hlen).
  - by apply pow2_le_ceil_log2.
  - by rewrite length_map.
  - exact Hi.
  - by apply lookup_map_node.
  - assert (Hne : ls ≠ []) by (intros ->; done).
    destruct (round_trip_finish value hash eq
                (fun a => proj2 (Heq a a) eq_refl) ls L path rest Hne Hp Hl)
      as [Hprove Hverify].
    by exists path.
Qed.

(** X1: the [for] loop of [root], which leaves at a missing right
    neighbour, and the loop of step 4 of [prove], which tests the bound,
    build the same next level from every level; it has half as many nodes,
    rounded up. *)
Theorem loops_build_the_same_level (nodes : list (Node V)) :
  ∃ lvl, root_for V hash (S (length nodes)) 0 nodes [] = Ok lvl
         ∧ step4_for V hash (S (length nodes)) 0 nodes [] = Ok lvl
         ∧ length lvl = Nat.div2 (S (length nodes)).
Proof.
  exists (spec_next_level V hash nodes).
  split; [apply root_for_next_level |].
  split; [apply step4_for_next_level | apply next_level_length].
Qed.

(** X2: on [n >= 1] nodes the [while] loop of [root] makes exactly
    [ceil_log2 n] passes, the number of levels [prove] computes as
    [merkleTreeLevel]: it ends in one node when it may test its condition
    more than [ceil_log2 n] times, and not with fewer tests. *)
Theorem root_while_passes (nodes : list (Node V)) (fuel : nat) :
  nodes ≠ [] →
  ((fuel <= ceil_log2 (length nodes))%nat →
     root_while V hash fuel nodes = Throw OutOfFuel)
  ∧ ((ceil_log2 (length nodes) < fuel)%nat →
     ∃ r, root_while V hash fuel nodes = Ok [r]).
Proof.
  intros Hne. split; [apply root_while_short |].
  intros Hf. rewrite root_while_level by exact Hf.
  destruct (level_root hash (ceil_log2 (length nodes)) nodes Hne) as (r & -> & _);
    [lia |].
  by exists r.
Qed.

(** X3: the proof [prove] returns on a tree of [n >= 1] leaves has at most
    [ceil_log2 n] entries. *)
Theorem proof_length_bound (t : Tree) (leaf : Leaf) (h : store) :
  leaves_of Leaf t h ≠ [] →
  ∃ proof, Tree_prove Leaf V value hash eq t leaf h = (Ok proof, h)
           ∧ (length proof <= ceil_log2 (length (leaves_of Leaf t h)))%nat.
Proof.
  intros Hne. unfold Tree_prove.
  destruct (prove_total value hash eq (leaves_of Leaf t h) leaf Hne)
    as (proof & -> & Hlen).
  by exists proof.
Qed.

(** X4: whatever the hash and the number of leaves, [verify] accepts the
    proof [prove] generates for the first leaf of the stored array; [eq]
    need only hold a node equal to itself. *)
Theorem first_leaf_round_trip (ls : list Leaf) (L : Leaf) :
  (∀ a, eq a a = true) →
  ls !! 0%nat = Some L →
  ∃ proof, prove Leaf V value hash eq ls L = Ok proof
           ∧ verify Leaf V value hash eq ls L proof = Ok true.
Proof.
  intros Heq HL. destruct ls as [|l ls]; [done |]. injection HL as ->.
  destruct (prove_for_first hash eq Heq (ceil_log2 (length (L :: ls)))
              (node L) (map node ls) []) as (path & rest & Hp & Hl & _).
  destruct (round_trip_finish value hash eq Heq (L :: ls) L path rest)
    as [Hprove Hverify]; [done | exact Hp | exact Hl |].
  by exists path.
Qed.

(** X5: with a hash that does not depend on the order of its arguments and
    an [eq] that is equality, every leaf among the first [2^j] stored
    leaves of a tree of at least [2^j] leaves gets a proof that [verify]
    accepts; the proof has at least [j] entries. *)
Theorem left_block_round_trip (ls : list Leaf) (L : Leaf) (j i : nat) :
  (∀ a b, hash a b = hash b a) →
  (∀ a b, eq a b = true ↔ a = b) →
  (2 ^ j <= length ls)%nat → (i < 2 ^ j)%nat → ls !! i = Some L →
  ∃ proof, prove Leaf V value hash eq ls L = Ok proof
           ∧ (j <= length proof)%nat
           ∧ verify Leaf V value hash eq ls L proof = Ok true.
Proof.
  intros Hcomm Heq Hj Hi HL.
  destruct (left_block_path ls L j i Hcomm Heq Hj Hi HL)
    as (proof & Hp & Hlen & Hv).
  exists proof. split; [exact Hp |]. split; [lia | exact Hv].
Qed.

(** X6: in a tree built from [2^k] leaves, with such a hash and such an
    [eq], [prove] gives every leaf of the tree a proof of exactly [k]
    entries, and [verify] accepts it. *)
Theorem power_of_two_round_trip (ls : positive) (h : store) (l : list Leaf)
    (L : Leaf) (k : nat) :
  (∀ a b, hash a b = hash b a) →
  (∀ a b, eq a b = true ↔ a = b) →
  h !! ls = Some l → length l = (2 ^ k)%nat → L ∈ l →
  let t := (Tree_new Leaf gte ls h).1 in
  let h' := (Tree_new Leaf gte ls h).2 in
  ∃ proof, Tree_prove Leaf V value hash eq t L h' = (Ok proof, h')
           ∧ length proof = k
           ∧ Tree_verify Leaf V value hash eq t L proof h' = (Ok true, h').
Proof.
  intros Hcomm Heq Hl Hlen HL t h'. unfold Tree_prove, Tree_verify. subst t h'.
  rewrite (Tree_new_leaves gte ls h l Hl).
  pose proof (sort_Permutation gte l) as Hperm.
  assert (Hlen' : length (sort Leaf gte l) = (2 ^ k)%nat)
    by (by rewrite <- (Permutation_length Hperm)).
  assert (HL' : L ∈ sort Leaf gte l) by (by rewrite <- Hperm).
  apply list_elem_of_lookup in HL' as [i Hi].
  pose proof (lookup_lt_Some _ _ _ Hi) as Hlt.
  destruct (left_block_path (sort Leaf gte l) L k i Hcomm Heq)
    as (proof & Hp & Hbound & Hv); [lia | lia | exact Hi |].
  exists proof. rewrite Hp, Hv. split; [reflexivity |]. split; [| reflexivity].
  rewrite Hlen' in Hbound. unfold ceil_log2 in Hbound.
  rewrite Nat.log2_up_pow2 in Hbound by lia. lia.
Qed.

(** X7: for a leaf whose node is in no level of the tree, [prove] returns
    the empty proof, and [verify] rejects it. *)
Theorem absent_leaf_empty_proof (ls : list Leaf) (L : Leaf) :
  (∀ a b, eq a b = true ↔ a = b) →
  ls ≠ [] →
  (∀ k, (k <= ceil_log2 (length ls))%nat → node L ∉ level k (map node ls)) →
  prove Leaf V value hash eq ls L = Ok []
  ∧ verify Leaf V value hash eq ls L [] = Ok false.
Proof.
  intros Heq Hne Habs. split.
  - unfold prove. rewrite length_map.
    destruct ls as [|l1 [|l2 ls]]; [done | done |].
    replace (len (map _ (l1 :: l2 :: ls)) =? 0) with false
      by (symmetry; apply Z.eqb_neq; unfold len; simpl; lia).
    replace (len (map _ (l1 :: l2 :: ls)) =? 1) with false
      by (symmetry; apply Z.eqb_neq; unfold len; simpl; lia).
    apply (prove_for_absent hash eq Heq). intros k Hk. apply Habs. lia.
  - unfold verify. cbn [fold_left].
    destruct (root_reduce value hash ls Hne) as (r & -> & Hs). cbn [bind].
    destruct (level_root hash (ceil_log2 (length ls)) (map node ls))
      as (r' & Hr' & Hs'); [by destruct ls | by rewrite length_map |].
    rewrite length_map in Hs'. rewrite Hs in Hs'. injection Hs' as <-.
    f_equal. apply (eq_differ eq Heq). intros ->.
    apply (Habs (ceil_log2 (length ls))); [lia |].
    rewrite Hr'. by apply list_elem_of_singleton.
Qed.

(** X8: every entry of a proof that [prove] returns is a node of one of
    the levels the loop went through. *)
Theorem proof_entries_are_level_nodes (ls : list Leaf) (L : Leaf)
    (proof : list (Node V)) :
  prove Leaf V value hash eq ls L = Ok proof →
  ∀ s, s ∈ proof →
       ∃ k, (k < ceil_log2 (length ls))%nat ∧ s ∈ level k (map node ls).
Proof.
  unfold prove. rewrite length_map. intros Hp s Hs.
  destruct (len (map node ls) =? 0); [discriminate |].
  destruct (len (map node ls) =? 1).
  - injection Hp as <-. by apply elem_of_nil in Hs.
  - destruct (prove_for_entries hash eq _ _ _ _ _ Hp s Hs) as [Hin | Hk];
      [by apply elem_of_nil in Hin | exact Hk].
Qed.

(** X9: when [gte] is a consistent comparator that holds two leaves equal
    only if they have the same value, trees built from two arrangements of
    the same leaves give every leaf the same proof and every proof the
    same answer of [verify]. *)
Theorem proofs_independent_of_order (ls1 ls2 : positive) (h1 h2 : store)
    (l1 l2 : list Leaf) (L : Leaf) (proof : list (Node V)) :
  consistent_comparator Leaf gte →
  (∀ a b, gte a b = 0 → value a = value b) →
  h1 !! ls1 = Some l1 →
  h2 !! ls2 = Some l2 →
  Permutation l1 l2 →
  (Tree_prove Leaf V value hash eq
     (Tree_new Leaf gte ls1 h1).1 L (Tree_new Leaf gte ls1 h1).2).1
  = (Tree_prove Leaf V value hash eq
       (Tree_new Leaf gte ls2 h2).1 L (Tree_new Leaf gte ls2 h2).2).1
  ∧ (Tree_verify Leaf V value hash eq
       (Tree_new Leaf gte ls1 h1).1 L proof (Tree_new Leaf gte ls1 h1).2).1
    = (Tree_verify Leaf V value hash eq
         (Tree_new Leaf gte ls2 h2).1 L proof (Tree_new Leaf gte ls2 h2).2).1.
Proof.
  intros Hcf Hv H1 H2 Hp. unfold Tree_prove, Tree_verify. cbn [fst].
  rewrite (Tree_new_leaves gte ls1 h1 l1 H1), (Tree_new_leaves gte ls2 h2 l2 H2).
  pose proof (sort_values gte Hcf value l1 l2 Hv Hp) as Hvals.
  split; [by apply prove_values |].
  unfold verify. by rewrite (root_values value hash _ _ Hvals).
Qed.

(** X10: with a consistent comparator, building a second tree from the
    array of a first one changes nothing: both trees hold the same
    reference and the array stays as the first construction left it. *)
Theorem second_construction_keeps_array (ls : positive) (h : store) :
  consistent_comparator Leaf gte →
  Tree_new Leaf gte ls (Tree_new Leaf gte ls h).2 = Tree_new Leaf gte ls h.
Proof.
  intros Hcf. unfold Tree_new. cbn [snd]. f_equal.
  apply map_eq. intros r. destruct (decide (ls = r)) as [-> | Hr].
  - rewrite !lookup_alter_eq. destruct (h !! r) as [l|]; [| done].
    cbn. f_equal. apply sort_Sorted_id. by apply sort_Sorted.
  - by rewrite !lookup_alter_ne.
Qed.

End MoreProperties.

(** ** The further properties at the sample instance *)

Lemma root_while_passes_witness :
  ((2 <= ceil_log2 (length [N 1; N 2; N 3]))%nat →
     root_while Z hashZ 2 [N 1; N 2; N 3] = Throw OutOfFuel)
  ∧ ((ceil_log2 (length [N 1; N 2; N 3]) < 2)%nat →
     ∃ r, root_while Z hashZ 2 [N 1; N 2; N 3] = Ok [r]).
Proof. apply (root_while_passes hashZ [N 1; N 2; N 3] 2). discriminate. Defined.

Lemma proof_length_bound_witness :
  let h : gmap positive (list Z) := {[1%positive := [1; 2; 3; 4; 5]]} in
  ∃ proof, Tree_prove Z Z id hashZ eqZ (mkTree 1) 5 h = (Ok proof, h)
           ∧ (length proof <= ceil_log2 (length (leaves_of Z (mkTree 1) h)))%nat.
Proof.
  apply (proof_length_bound id hashZ eqZ (mkTree 1) 5
           {[1%positive := [1; 2; 3; 4; 5]]}).
  discriminate.
Defined.

Lemma first_leaf_round_trip_witness :
  ∃ proof, prove Z Z id hashLR eqZ [1; 2; 3] 1 = Ok proof
           ∧ verify Z Z id hashLR eqZ [1; 2; 3] 1 proof = Ok true.
Proof.
  apply (first_leaf_round_trip id hashLR eqZ [1; 2; 3] 1).
  - exact eqZ_refl.
  - reflexivity.
Defined.

Lemma left_block_round_trip_witness :
  ∃ proof, prove Z Z id hashZ eqZ [1; 2; 3; 4; 5] 4 = Ok proof
           ∧ (2 <= length proof)%nat
           ∧ verify Z Z id hashZ eqZ [1; 2; 3; 4; 5] 4 proof = Ok true.
Proof.
  apply (left_block_round_trip id hashZ eqZ [1; 2; 3; 4; 5] 4 2 3).
  - exact hashZ_comm.
  - exact eqZ_spec.
  - simpl. lia.
  - simpl. lia.
  - reflexivity.
Defined.

Lemma power_of_two_round_trip_witness :
  let t := (Tree_new Z gteZ 1 {[1%positive := [3; 1; 4; 2]]}).1 in
  let h' := (Tree_new Z gteZ 1 {[1%positive := [3; 1; 4; 2]]}).2 in
  ∃ proof, Tree_prove Z Z id hashZ eqZ t 4 h' = (Ok proof, h')
           ∧ length proof = 2%nat
           ∧ Tree_verify Z Z id hashZ eqZ t 4 proof h' = (Ok true, h').
Proof.
  apply (power_of_two_round_trip id gteZ hashZ eqZ 1%positive
           {[1%positive := [3; 1; 4; 2]]} [3; 1; 4; 2] 4 2).
  - exact hashZ_comm.
  - exact eqZ_spec.
  - reflexivity.
  - reflexivity.
  - rewrite !elem_of_cons. tauto.
Defined.

Lemma absent_leaf_empty_proof_witness :
  prove Z Z id hashZ eqZ [1; 2; 3] 9 = Ok []
  ∧ verify Z Z id hashZ eqZ [1; 2; 3] 9 [] = Ok false.
Proof.
  apply (absent_leaf_empty_proof id hashZ eqZ [1; 2; 3] 9).
  - exact eqZ_spec.
  - discriminate.
  - intros k Hk. change (ceil_log2 (length [1; 2; 3])) with 2%nat in Hk.
    destruct k as [|[|[|k]]]; [| | | lia]; intros Hin; vm_compute in Hin;
      repeat (apply elem_of_cons in Hin as [Hin | Hin]; [discriminate Hin |]);
      by apply elem_of_nil in Hin.
Defined.

Lemma proof_entries_are_level_nodes_witness :
  ∃ k, (k < ceil_log2 (length [1; 2; 3]))%nat
       ∧ N 3 ∈ spec_level Z hashZ k
                 (map (fun leaf => new_Node Z (id leaf)) [1; 2; 3]).
Proof.
  apply (proof_entries_are_level_nodes id hashZ eqZ [1; 2; 3] 1 [N 2; N 3]).
  - reflexivity.
  - rewrite !elem_of_cons. tauto.
Defined.

Lemma proofs_independent_of_order_witness :
  (Tree_prove Z Z id hashZ eqZ
     (Tree_new Z gteZ 1 {[1%positive := [3; 1; 2]]}).1 2
     (Tree_new Z gteZ 1 {[1%positive := [3; 1; 2]]}).2).1
  = (Tree_prove Z Z id hashZ eqZ
       (Tree_new Z gteZ 2 {[2%positive := [1; 2; 3]]}).1 2
       (Tree_new Z gteZ 2 {[2%positive := [1; 2; 3]]}).2).1
  ∧ (Tree_verify Z Z id hashZ eqZ
       (Tree_new Z gteZ 1 {[1%positive := [3; 1; 2]]}).1 2 [N 1; N 3]
       (Tree_new Z gteZ 1 {[1%positive := [3; 1; 2]]}).2).1
    = (Tree_verify Z Z id hashZ eqZ
         (Tree_new Z gteZ 2 {[2%positive := [1; 2; 3]]}).1 2 [N 1; N 3]
         (Tree_new Z gteZ 2 {[2%positive := [1; 2; 3]]}).2).1.
Proof.
  apply (proofs_independent_of_order id gteZ hashZ eqZ 1%positive 2%positive
           {[1%positive := [3; 1; 2]]} {[2%positive := [1; 2; 3]]}
           [3; 1; 2] [1; 2; 3] 2 [N 1; N 3]).
  - exact gteZ_consistent.
  - exact gteZ_value.
  - reflexivity.
  - reflexivity.
  - exact perm_312.
Defined.

Lemma second_construction_keeps_array_witness :
  Tree_new Z gteZ 1 (Tree_new Z gteZ 1 {[1%positive := [3; 1; 2]]}).2
  = Tree_new Z gteZ 1 {[1%positive := [3; 1; 2]]}.
Proof.
  apply (second_construction_keeps_array gteZ 1%positive
           {[1%positive := [3; 1; 2]]}).
  exact gteZ_consistent.
Defined.
